(** * Party movie ranking: member Elo scorer, vector normalisation,
      aggregation and persistence of the final ratings

    Shallow embedding of the pure core of the party movie service
    ([calculateMemberElo], the grouping / normalisation / persistence steps of
    [calculateAndStoreFinalRankings], and the query of [getPartyRankings]).

    Conventions of the embedding.
    - A JavaScript [number] that carries a rating or an expected score is an
      exact rational ([Qc], canonical rationals with Leibniz equality);
      the IEEE doubles of the program agree with it up to rounding.  Where
      the rounding decides, the scorer is also given on the doubles
      themselves ([Module Double], binary64 with round to nearest even).
    - A JavaScript [Map<string, V>] is an association list in insertion
      order with unique keys: [set] on a present key replaces the value in
      place, [set] on a new key appends, exactly the iteration order of a
      JavaScript [Map].
    - [Array.prototype.sort(compareFn)] is a stable sort; the comparator
      returns a number whose sign decides ([compareFn a b <= 0] keeps [a]
      in front of [b]).
    - [String.prototype.localeCompare] is host collation: it is a parameter
      of the development, assumed to be a consistent comparator. *)

From Corelib Require Import PrimFloat.
From Stdlib Require Import QArith Qcanon Lqa.
From stdpp Require Import base numbers strings list sorting gmap.

Local Open Scope Qc_scope.

(** ** JavaScript [Map] with string keys *)

Module JsMap.
Section JsMap.
Context {V : Type}.

Definition t := list (string * V).

Definition empty : t := [].

(** [m.get(k)] *)
Fixpoint get (k : string) (m : t) : option V :=
  match m with
  | [] => None
  | (k', v) :: m' => if decide (k = k') then Some v else get k m'
  end.

(** [m.set(k, v)]: a present key keeps its position, a new key goes last. *)
Fixpoint set (k : string) (v : V) (m : t) : t :=
  match m with
  | [] => [(k, v)]
  | (k', v') :: m' =>
      if decide (k = k') then (k, v) :: m' else (k', v') :: set k v m'
  end.

(** [m.keys()] and [m.values()], in insertion order. *)
Definition keys (m : t) : list string := m.*1.
Definition values (m : t) : list V := m.*2.

(** [new Map(entries)] *)
Definition of_entries (es : list (string * V)) : t :=
  foldl (fun m e => set e.1 e.2 m) empty es.

End JsMap.
Global Arguments t : clear implicits.
End JsMap.

(** ** Data model *)

(** A row of [party_movies]; only the columns the core reads are kept.
    [elo_rating] is nullable in the store, hence an option. *)
Record PartyMovie := {
  party_id : string;
  movie_id : string;
  title : string;
  expected_score : Qc;
  elo_rating : option Qc;
}.

(** ['left' | 'right'] *)
Inductive Direction := SwipeLeft | SwipeRight.

(** [{ movie_id; direction }] *)
Record Swipe := {
  swipe_movie_id : string;
  direction : Direction;
}.

(** The value type of the [movieRatings] map. *)
Record MovieRating := {
  elo : Qc;
  mr_expected_score : Qc;
  mr_title : string;
}.

(** [{ title; elo }], the entries of a member rating vector. *)
Record TitleElo := {
  te_title : string;
  te_elo : Qc;
}.

Global Instance Direction_eq_dec : EqDecision Direction.
Proof. solve_decision. Defined.
Global Instance Swipe_eq_dec : EqDecision Swipe.
Proof. solve_decision. Defined.
Global Instance TitleElo_eq_dec : EqDecision TitleElo.
Proof. solve_decision. Defined.
Global Instance MovieRating_eq_dec : EqDecision MovieRating.
Proof. solve_decision. Defined.
Global Instance PartyMovie_eq_dec : EqDecision PartyMovie.
Proof. solve_decision. Defined.

(** ** The Member Scorer: [calculateMemberElo] *)

Definition K_FACTOR : Qc := Qc_of_Z 32.
Definition BASE_ELO : Qc := Qc_of_Z 1200.

(** [swipe.direction === 'right' ? 1.0 : 0.0] *)
Definition actualScore (d : Direction) : Qc :=
  match d with SwipeRight => 1 | SwipeLeft => 0 end.

(** [K_FACTOR * (actualScore - movieRating.expected_score)] *)
Definition eloChange (d : Direction) (e : Qc) : Qc :=
  K_FACTOR * (actualScore d - e).

(** First loop: every movie enters the map at the base rating. *)
Definition initMovie (m : JsMap.t MovieRating) (movie : PartyMovie)
  : JsMap.t MovieRating :=
  JsMap.set (movie_id movie)
    {| elo := BASE_ELO;
       mr_expected_score := expected_score movie;
       mr_title := title movie |} m.

Definition initRatings (movies : list PartyMovie) : JsMap.t MovieRating :=
  foldl initMovie JsMap.empty movies.

(** [movieRating.elo += eloChange]: the object stored in the map is
    mutated, so the entry changes in place.  The sum is exact here; the
    rounded sum of the program is [Double.bump]. *)
Definition bump (d : Direction) (r : MovieRating) : MovieRating :=
  {| elo := elo r + eloChange d (mr_expected_score r);
     mr_expected_score := mr_expected_score r;
     mr_title := mr_title r |}.

(** Body of the second loop; an unknown movie id is the [continue]. *)
Definition applySwipe (m : JsMap.t MovieRating) (s : Swipe)
  : JsMap.t MovieRating :=
  match JsMap.get (swipe_movie_id s) m with
  | None => m
  | Some r => JsMap.set (swipe_movie_id s) (bump (direction s) r) m
  end.

(** The [movieRatings] map after both loops. *)
Definition movieRatings (movies : list PartyMovie) (memberSwipes : list Swipe)
  : JsMap.t MovieRating :=
  foldl applySwipe (initRatings movies) memberSwipes.

Definition toTitleElo (r : MovieRating) : TitleElo :=
  {| te_title := mr_title r; te_elo := elo r |}.

Definition calculateMemberElo
    (movies : list PartyMovie) (memberSwipes : list Swipe) : list TitleElo :=
  toTitleElo <$> JsMap.values (movieRatings movies memberSwipes).

(** Sum of the deltas of the swipes that hit movie id [k]. *)
Fixpoint sumDeltas (k : string) (e : Qc) (swipes : list Swipe) : Qc :=
  match swipes with
  | [] => 0
  | s :: rest =>
      (if decide (swipe_movie_id s = k) then eloChange (direction s) e else 0)
      + sumDeltas k e rest
  end.

(** The effect of one swipe, and of a list of swipes in order, on the
    entry stored under key [k]. *)
Definition swipeEntry (s : Swipe) (k : string) (r : MovieRating) : MovieRating :=
  if decide (swipe_movie_id s = k) then bump (direction s) r else r.

Definition replay (swipes : list Swipe) (k : string) (r : MovieRating)
  : MovieRating :=
  foldl (fun r s => swipeEntry s k r) r swipes.

(** A map with the same keys in the same order and new values. *)
Definition mapEntries {V W : Type} (g : string -> V -> W) (m : JsMap.t V)
  : JsMap.t W :=
  (fun kv => (kv.1, g kv.1 kv.2)) <$> m.

(** The entry a movie row starts with. *)
Definition baseRating (movie : PartyMovie) : MovieRating :=
  {| elo := BASE_ELO;
     mr_expected_score := expected_score movie;
     mr_title := title movie |}.

(** ** The Member Scorer on IEEE doubles *)

(** [calculateMemberElo] once more, line by line, with every [number] a
    binary64 double and [+], [-], [*] the operations of the doubles. *)
Module Double.

Record PartyMovie := {
  movie_id : string;
  title : string;
  expected_score : float;
}.

Record MovieRating := {
  elo : float;
  mr_expected_score : float;
  mr_title : string;
}.

Record TitleElo := {
  te_title : string;
  te_elo : float;
}.

Definition K_FACTOR : float := 32%float.
Definition BASE_ELO : float := 1200%float.

(** [swipe.direction === 'right' ? 1.0 : 0.0] *)
Definition actualScore (d : Direction) : float :=
  match d with SwipeRight => 1%float | SwipeLeft => 0%float end.

(** [K_FACTOR * (actualScore - movieRating.expected_score)] *)
Definition eloChange (d : Direction) (e : float) : float :=
  PrimFloat.mul K_FACTOR (PrimFloat.sub (actualScore d) e).

Definition baseRating (movie : PartyMovie) : MovieRating :=
  {| elo := BASE_ELO;
     mr_expected_score := expected_score movie;
     mr_title := title movie |}.

Definition initMovie (m : JsMap.t MovieRating) (movie : PartyMovie)
  : JsMap.t MovieRating :=
  JsMap.set (movie_id movie) (baseRating movie) m.

Definition initRatings (movies : list PartyMovie) : JsMap.t MovieRating :=
  foldl initMovie JsMap.empty movies.

(** [movieRating.elo += eloChange] *)
Definition bump (d : Direction) (r : MovieRating) : MovieRating :=
  {| elo := PrimFloat.add (elo r) (eloChange d (mr_expected_score r));
     mr_expected_score := mr_expected_score r;
     mr_title := mr_title r |}.

Definition applySwipe (m : JsMap.t MovieRating) (s : Swipe)
  : JsMap.t MovieRating :=
  match JsMap.get (swipe_movie_id s) m with
  | None => m
  | Some r => JsMap.set (swipe_movie_id s) (bump (direction s) r) m
  end.

Definition movieRatings (movies : list PartyMovie) (memberSwipes : list Swipe)
  : JsMap.t MovieRating :=
  foldl applySwipe (initRatings movies) memberSwipes.

Definition toTitleElo (r : MovieRating) : TitleElo :=
  {| te_title := mr_title r; te_elo := elo r |}.

Definition calculateMemberElo
    (movies : list PartyMovie) (memberSwipes : list Swipe) : list TitleElo :=
  toTitleElo <$> JsMap.values (movieRatings movies memberSwipes).

(** The effect of one swipe, and of a list of swipes in order, on the
    entry stored under key [k]. *)
Definition swipeEntry (s : Swipe) (k : string) (r : MovieRating) : MovieRating :=
  if decide (swipe_movie_id s = k) then bump (direction s) r else r.

Definition replay (swipes : list Swipe) (k : string) (r : MovieRating)
  : MovieRating :=
  foldl (fun r s => swipeEntry s k r) r swipes.

(** The deltas of a list of swipes added to a rating, one after the
    other, for a candidate of expected score [e]. *)
Definition addDeltas (e : float) (x : float) (swipes : list Swipe) : float :=
  foldl (fun x s => PrimFloat.add x (eloChange (direction s) e)) x swipes.

End Double.

(** The swipes of a list on movie id [k], in their order. *)
Definition swipesOn (k : string) (swipes : list Swipe) : list Swipe :=
  filter (fun s => swipe_movie_id s = k) swipes.

(** ** [Array.prototype.sort] and [Set] *)

Section Sort.
Context {A : Type} (compareFn : A -> A -> Z).

(** Insertion of [x], which stood before every element of [l]: it stays in
    front of the elements it does not compare greater than (stability). *)
Fixpoint sort_insert (x : A) (l : list A) : list A :=
  match l with
  | [] => [x]
  | y :: l' =>
      if decide (compareFn x y ≤ 0)%Z then x :: y :: l'
      else y :: sort_insert x l'
  end.

(** [l.sort(compareFn)] *)
Definition js_sort (l : list A) : list A := foldr sort_insert [] l.

(** What [sort] establishes. *)
Definition le_by (a b : A) : Prop := (compareFn a b ≤ 0)%Z.

End Sort.

(** What ECMAScript asks of a comparator (a consistent comparison
    function), as far as the sign tests of a sort can see it. *)
Record ConsistentComparator {A : Type} (compareFn : A -> A -> Z) : Prop := {
  cmp_antisym : forall a b, (0 < compareFn a b)%Z <-> (compareFn b a < 0)%Z;
  cmp_trans : forall a b c,
    (compareFn a b ≤ 0)%Z -> (compareFn b c ≤ 0)%Z -> (compareFn a c ≤ 0)%Z;
}.

(** Comparison of strings by code units, one consistent comparator. *)
Definition codeUnitCompare (a b : string) : Z :=
  match String.compare a b with
  | Lt => (-1)%Z
  | Eq => 0%Z
  | Gt => 1%Z
  end.

(** [s.add(x)] and [new Set(l)], in insertion order. *)
Definition set_add (s : list string) (x : string) : list string :=
  if decide (x ∈ s) then s else s ++ [x].

Definition new_Set (l : list string) : list string := foldl set_add [] l.

(** ** [calculateAndStoreFinalRankings]: grouping, scoring, normalisation *)

(** A row of [party_members] and a row of [user_swipes]. *)
Record MemberRow := {
  member_party_id : string;
  member_user_id : string;
  status : string;
}.

Record SwipeRow := {
  row_party_id : string;
  row_user_id : string;
  row_movie_id : string;
  row_direction : Direction;
}.

Global Instance MemberRow_eq_dec : EqDecision MemberRow.
Proof. solve_decision. Defined.
Global Instance SwipeRow_eq_dec : EqDecision SwipeRow.
Proof. solve_decision. Defined.

(** [swipesByMember.set(member.user_id, [])] for every member. *)
Definition initMembers (members : list string) : JsMap.t (list Swipe) :=
  foldl (fun m u => JsMap.set u [] m) JsMap.empty members.

(** [{ movie_id: swipe.movie_id, direction: swipe.direction }] *)
Definition toSwipe (row : SwipeRow) : Swipe :=
  {| swipe_movie_id := row_movie_id row; direction := row_direction row |}.

(** [memberSwipes.push(...)] when the swipe's user is a member. *)
Definition pushSwipe (m : JsMap.t (list Swipe)) (row : SwipeRow)
  : JsMap.t (list Swipe) :=
  match JsMap.get (row_user_id row) m with
  | Some memberSwipes =>
      JsMap.set (row_user_id row) (memberSwipes ++ [toSwipe row]) m
  | None => m
  end.

Definition swipesByMember (members : list string) (allSwipes : list SwipeRow)
  : JsMap.t (list Swipe) :=
  foldl pushSwipe (initMembers members) allSwipes.

(** [(a, b) => a.title.localeCompare(b.title)] *)
Definition byTitle (localeCompare : string -> string -> Z) (a b : TitleElo) : Z :=
  localeCompare (te_title a) (te_title b).

(** One sorted vector per member, in the order of [swipesByMember]. *)
Definition scoreMembers (localeCompare : string -> string -> Z)
    (movies : list PartyMovie) (groups : JsMap.t (list Swipe))
  : list (list TitleElo) :=
  (fun memberSwipes =>
     js_sort (byTitle localeCompare) (calculateMemberElo movies memberSwipes))
  <$> JsMap.values groups.

(** The inner loop over [allTitles]: the titles the member lacks are pushed
    with the base rating. [memberTitles] is computed once, before the pushes. *)
Definition padMissing (allTitles : list string) (memberArray : list TitleElo)
  : list TitleElo :=
  let memberTitles := new_Set (te_title <$> memberArray) in
  memberArray
  ++ ((fun t => {| te_title := t; te_elo := BASE_ELO |})
        <$> filter (fun t => t ∉ memberTitles) allTitles).

(** The normalisation block: [allTitles] comes from [memberEloArrays[0]]
    as it stands before the loop; every array is padded, then sorted again. *)
Definition normalizeVectors (localeCompare : string -> string -> Z)
    (memberEloArrays : list (list TitleElo)) : list (list TitleElo) :=
  match memberEloArrays with
  | [] => []
  | firstArray :: _ =>
      let allTitles := new_Set (te_title <$> firstArray) in
      (fun memberArray =>
         js_sort (byTitle localeCompare) (padMissing allTitles memberArray))
      <$> memberEloArrays
  end.

(** The set of titles of a vector, and completeness over a set of titles. *)
Definition titlesOf (v : list TitleElo) : list string := te_title <$> v.

Definition completeOver (ts : list string) (v : list TitleElo) : Prop :=
  forall t, t ∈ ts -> t ∈ titlesOf v.


(** ** The Rank Aggregator *)

(** [checkAll] is imported from [lib/elo_rating/compare_elo]; that module
    is not among the sources, so the aggregator below follows the
    specification. *)

(** Modelled from the spec: the sum behind the simple average of the
    worked example (the combining function of the absent [checkAll]). *)
Definition sumQc (l : list Qc) : Qc := foldr Qcplus 0 l.

(** Modelled from the spec: the arithmetic mean, the combining function
    the specification names for the absent [checkAll]. *)
Definition mean (l : list Qc) : Qc :=
  sumQc l / Qc_of_Z (Z.of_nat (length l)).

(** Modelled from the spec: the per-member ratings of the item with title
    [t], which the absent [checkAll] combines. *)
Definition ratingsOf (t : string) (vectors : list (list TitleElo)) : list Qc :=
  te_elo <$> filter (fun e => te_title e = t) (mjoin vectors).

(** Modelled from the spec: the call shape of the absent [checkAll], the
    list of member vectors in and one consensus vector out, one rating per
    title of the (common) title list, empty for no input, with the
    combining function over the ratings of an item left open. *)
Definition aggregateWith (combine : list Qc -> Qc)
    (vectors : list (list TitleElo)) : list TitleElo :=
  match vectors with
  | [] => []
  | first :: _ =>
      (fun t => {| te_title := t; te_elo := combine (ratingsOf t vectors) |})
      <$> titlesOf first
  end.

(** Modelled from the spec: [checkAll] of [lib/elo_rating/compare_elo],
    which the service imports and whose code is not among the sources.
    The specification gives its call shape and the simple average as the
    conforming combining function of its worked example. *)
Definition checkAll (vectors : list (list TitleElo)) : list TitleElo :=
  aggregateWith mean vectors.

(** ** Persistence of the final ratings *)

(** [new Map(aggregatedElos.map(m => [m.title, m.elo]))] *)
Definition eloMap (aggregatedElos : list TitleElo) : JsMap.t Qc :=
  JsMap.of_entries ((fun m => (te_title m, te_elo m)) <$> aggregatedElos).

(** Truthiness of a number that may be absent: [undefined], [null] and
    [0] are falsy. *)
Definition truthy (x : option Qc) : bool :=
  match x with
  | Some v => bool_decide (v ≠ 0)
  | None => false
  end.

(** [a || b] *)
Definition js_or (a b : option Qc) : option Qc := if truthy a then a else b.

(** [eloMap.get(movie.title) || movie.elo_rating || 1200] *)
Definition finalElo (aggregatedElos : list TitleElo) (movie : PartyMovie)
  : option Qc :=
  js_or (js_or (JsMap.get (title movie) (eloMap aggregatedElos))
               (elo_rating movie))
        (Some (Qc_of_Z 1200)).

(** The store: the three tables the service reads and writes. *)
Record Db := {
  party_movies : list PartyMovie;
  party_members : list MemberRow;
  user_swipes : list SwipeRow;
}.

(** [update({ elo_rating }).eq('party_id', p).eq('movie_id', k)] *)
Definition updateElo (p k : string) (x : option Qc) (tbl : list PartyMovie)
  : list PartyMovie :=
  (fun row =>
     if decide (party_id row = p ∧ movie_id row = k)
     then {| party_id := party_id row; movie_id := movie_id row;
             title := title row; expected_score := expected_score row;
             elo_rating := x |}
     else row) <$> tbl.

(** The last loop: one update per fetched movie, with the fetched
    [elo_rating] as the fallback. *)
Definition storeFinalElos (p : string) (aggregatedElos : list TitleElo)
    (movies tbl : list PartyMovie) : list PartyMovie :=
  foldl (fun tbl movie =>
           updateElo p (movie_id movie) (finalElo aggregatedElos movie) tbl)
        tbl movies.

Inductive Outcome :=
  | Thrown
  | Returned (db : Db).

(** The whole operation on the store, for queries that succeed: the
    throws on [moviesError] and [swipesError] and the return on
    [membersError] are not modelled.  An empty movie list throws, an
    empty member list returns at once. *)
Definition calculateAndStoreFinalRankings
    (localeCompare : string -> string -> Z) (db : Db) (partyId : string)
  : Outcome :=
  let movies := filter (fun r => party_id r = partyId) (party_movies db) in
  if decide (movies = []) then Thrown
  else
    let members :=
      filter (fun r => member_party_id r = partyId ∧ status r = "active")
             (party_members db) in
    if decide (members = []) then Returned db
    else
      let allSwipes :=
        filter (fun r => row_party_id r = partyId) (user_swipes db) in
      let groups := swipesByMember (member_user_id <$> members) allSwipes in
      let memberEloArrays :=
        normalizeVectors localeCompare
          (scoreMembers localeCompare movies groups) in
      let aggregatedElos := checkAll memberEloArrays in
      Returned
        {| party_movies :=
             storeFinalElos partyId aggregatedElos movies (party_movies db);
           party_members := party_members db;
           user_swipes := user_swipes db |}.

(** ** [getPartyRankings] *)

(** [x >= y] in the order of the store, where an absent rating sorts as
    larger than every number. *)
Definition elo_ge (x y : option Qc) : bool :=
  match x, y with
  | None, _ => true
  | Some _, None => false
  | Some a, Some b => bool_decide (b ≤ a)
  end.

(** The contract of [.order('elo_rating', { ascending: false })]: the rows,
    with no rating before a larger one.  Rows of equal rating come in an
    order the query does not fix. *)
Definition OrderedByEloDesc (rows result : list PartyMovie) : Prop :=
  result ≡ₚ rows
  ∧ Sorted (fun a b => elo_ge (elo_rating a) (elo_rating b) = true) result.

Definition byEloDesc (a b : PartyMovie) : Z :=
  if elo_ge (elo_rating a) (elo_rating b)
  then (if elo_ge (elo_rating b) (elo_rating a) then 0%Z else (-1)%Z)
  else 1%Z.

(** The query, with rows of equal rating left in their stored order. *)
Definition getPartyRankings (db : Db) (partyId : string) : list PartyMovie :=
  js_sort byEloDesc (filter (fun r => party_id r = partyId) (party_movies db)).

(** Two rows tie and stand against the order of their titles. *)
Definition tieAgainstTitles (a b : PartyMovie) : Prop :=
  elo_rating a = elo_rating b ∧ String.compare (title b) (title a) = Lt.

(** ** The operation with the aggregator as a parameter *)

(** [calculateAndStoreFinalRankings] with the imported [checkAll] taken as
    the parameter [aggregate]; everything else is the code of the service. *)
Definition calculateAndStoreFinalRankingsWith
    (aggregate : list (list TitleElo) -> list TitleElo)
    (localeCompare : string -> string -> Z) (db : Db) (partyId : string)
  : Outcome :=
  let movies := filter (fun r => party_id r = partyId) (party_movies db) in
  if decide (movies = []) then Thrown
  else
    let members :=
      filter (fun r => member_party_id r = partyId ∧ status r = "active")
             (party_members db) in
    if decide (members = []) then Returned db
    else
      let allSwipes :=
        filter (fun r => row_party_id r = partyId) (user_swipes db) in
      let groups := swipesByMember (member_user_id <$> members) allSwipes in
      let memberEloArrays :=
        normalizeVectors localeCompare
          (scoreMembers localeCompare movies groups) in
      let aggregatedElos := aggregate memberEloArrays in
      Returned
        {| party_movies :=
             storeFinalElos partyId aggregatedElos movies (party_movies db);
           party_members := party_members db;
           user_swipes := user_swipes db |}.

(** A row with a new [elo_rating] and every other column as it was. *)
Definition setElo (x : option Qc) (row : PartyMovie) : PartyMovie :=
  {| party_id := party_id row; movie_id := movie_id row;
     title := title row; expected_score := expected_score row;
     elo_rating := x |}.

(** The columns of a movie row that the operation never writes. *)
Definition fixedColumns (row : PartyMovie) : string * string * string * Qc :=
  (party_id row, movie_id row, title row, expected_score row).

(** What the update loop leaves in a row: a row of party [p] holds the
    [finalElo] of the last fetched movie with its movie id, if there is one. *)
Definition storedRow (p : string) (aggregatedElos : list TitleElo)
    (movies : list PartyMovie) (row : PartyMovie) : PartyMovie :=
  if decide (party_id row = p)
  then match last (filter (fun m => movie_id m = movie_id row) movies) with
       | Some m => setElo (finalElo aggregatedElos m) row
       | None => row
       end
  else row.

(** How many swipes of a list hit movie id [k] in direction [d]. *)
Definition countSwipes (k : string) (d : Direction) (swipes : list Swipe) : nat :=
  length (filter (fun s => swipe_movie_id s = k ∧ direction s = d) swipes).

(** ** [recordSwipe] and [getUserSwipes] *)

(** A row of [party_members] with the columns [recordSwipe] reads and
    writes; [swipes_completed] may be null. *)
Record MemberProgress := {
  progress_party_id : string;
  progress_user_id : string;
  swipes_completed : option Z;
  has_completed_swiping : bool;
}.

Global Instance MemberProgress_eq_dec : EqDecision MemberProgress.
Proof. solve_decision. Defined.

(** The two tables [recordSwipe] works on. *)
Record SwipeStore := {
  swipe_rows : list SwipeRow;
  member_progress : list MemberProgress;
}.

(** [.single()]: the row when the query yields exactly one, no data
    otherwise (no row, or more than one). *)
Definition single {A : Type} (rows : list A) : option A :=
  match rows with
  | [row] => Some row
  | _ => None
  end.

(** [.eq('party_id', p).eq('user_id', u).eq('movie_id', k)] on [user_swipes] *)
Definition sameSwipe (p u k : string) (r : SwipeRow) : Prop :=
  row_party_id r = p ∧ row_user_id r = u ∧ row_movie_id r = k.

(** [.eq('party_id', p).eq('user_id', u)] on [user_swipes] and on
    [party_members] *)
Definition swipeOfUser (p u : string) (r : SwipeRow) : Prop :=
  row_party_id r = p ∧ row_user_id r = u.

Definition progressOfUser (p u : string) (m : MemberProgress) : Prop :=
  progress_party_id m = p ∧ progress_user_id m = u.

(** [(member.swipes_completed || 0) + 1] *)
Definition newCount (member : MemberProgress) : Z :=
  (default 0 (swipes_completed member) + 1)%Z.

(** The last block of [recordSwipe]: when the member row is found, the
    rows of that party and user get the new count and the flag
    [newCount >= 10]. *)
Definition updateProgress (p u : string) (rows : list MemberProgress)
  : list MemberProgress :=
  match single (filter (progressOfUser p u) rows) with
  | Some member =>
      (fun m =>
         if decide (progressOfUser p u m)
         then {| progress_party_id := progress_party_id m;
                 progress_user_id := progress_user_id m;
                 swipes_completed := Some (newCount member);
                 has_completed_swiping := bool_decide (10 ≤ newCount member)%Z |}
         else m) <$> rows
  | None => rows
  end.

Inductive RecordOutcome :=
  | NotAuthenticated
  | AlreadyRecorded
  | Recorded (row : SwipeRow) (store : SwipeStore).

(** [recordSwipe]: [user] is the authenticated user's id, if any.  The
    two [throw]s are the first two outcomes; a failing insert and the
    store's trigger on [user_swipes] are not modelled. *)
Definition recordSwipe (user : option string) (st : SwipeStore)
    (partyId movieId : string) (dir : Direction) : RecordOutcome :=
  match user with
  | None => NotAuthenticated
  | Some u =>
      match single (filter (sameSwipe partyId u movieId) (swipe_rows st)) with
      | Some existingSwipe => AlreadyRecorded
      | None =>
          let row := {| row_party_id := partyId; row_user_id := u;
                        row_movie_id := movieId; row_direction := dir |} in
          Recorded row
            {| swipe_rows := swipe_rows st ++ [row];
               member_progress := updateProgress partyId u (member_progress st) |}
      end
  end.

(** [getUserSwipes]: no result ([throw]) without an authenticated user. *)
Definition getUserSwipes (user : option string) (st : SwipeStore)
    (partyId : string) : option (list SwipeRow) :=
  match user with
  | None => None
  | Some u => Some (filter (swipeOfUser partyId u) (swipe_rows st))
  end.

(** At most one swipe per party, user and movie. *)
Definition UniqueSwipes (rows : list SwipeRow) : Prop :=
  NoDup ((fun r => (row_party_id r, row_user_id r, row_movie_id r)) <$> rows).

(** ** [generatePartyMovies]: the format of the aggregated preferences *)

(** A value as the remote procedure may return it. *)
#[warnings="-register-all"]
Inductive Json :=
  | JNull
  | JUndefined
  | JBool (b : bool)
  | JNum (x : Qc)
  | JStr (s : string)
  | JArr (vs : list Json)
  | JObj (fields : list (string * Json)).

(** [Array.isArray(v) ? v.map(String) : [String(v)]]; the conversion
    [String] of the language is the parameter [toStr]. *)
Definition flattenOne (toStr : Json -> string) (v : Json) : list string :=
  match v with
  | JArr vs => toStr <$> vs
  | _ => [toStr v]
  end.

(** The body of the loop over [Object.entries(aggregatedPrefs)]: the new
    value of a key, or nothing for [null] and [undefined]. *)
Definition normalizeValue (toStr : Json -> string) (value : Json)
  : option (list string) :=
  match value with
  | JArr vs => Some (vs ≫= flattenOne toStr)
  | JNull | JUndefined => None
  | _ => Some [toStr value]
  end.

(** The object [normalizedPreferences], as a finite map from keys. *)
Definition normalizedPreferences (toStr : Json -> string)
    (aggregatedPrefs : gmap string Json) : gmap string (list string) :=
  omap (normalizeValue toStr) aggregatedPrefs.

(** A [Record<string, string[]>] as the value the procedure returns. *)
Definition stringArray (l : list string) : Json := JArr (JStr <$> l).

(** An element of a preference array as the code expects it, a string or
    an array of strings, and the strings it stands for. *)
Definition itemJson (i : string + list string) : Json :=
  match i with
  | inl s => JStr s
  | inr l => stringArray l
  end.

Definition itemStrings (i : string + list string) : list string :=
  match i with
  | inl s => [s]
  | inr l => l
  end.

(** ** [getDirectorName] *)

Definition DIRECTORS : list string :=
  [ "Kubrick"; "Scorsese"; "Tarantino"; "Nolan"; "Fincher"; "Coppola";
    "Spielberg"; "Lynch"; "Anderson"; "Wong"; "Kurosawa"; "Bergman";
    "Tarkovsky"; "Fellini"; "Godard"; "Hitchcock"; "Welles"; "Polanski";
    "Allen"; "Malick"; "Cronenberg"; "Villeneuve"; "Aronofsky"; "Refn";
    "Jarmusch"; "Herzog"; "Haneke"; "Von Trier"; "Almodóvar"; "Del Toro";
    "Cuarón"; "Iñárritu"; "Bong"; "Park"; "Lee"; "Zhang"; "Miyazaki"; "Ozu";
    "Mizoguchi" ].

(** ToInt32: the integer modulo 2^32, read as a signed 32-bit integer. *)
Definition toInt32 (z : Z) : Z := ((z + 2 ^ 31) `mod` 2 ^ 32 - 2 ^ 31)%Z.

(** One round of the loop, [c] being [userId.charCodeAt(i)]:
    [hash = ((hash << 5) - hash) + c; hash = hash & hash].  The shift and
    the [&] wrap to 32 bits, the subtraction and the addition do not. *)
Definition hashStep (hash c : Z) : Z :=
  toInt32 ((toInt32 (toInt32 hash * 32) - hash) + c)%Z.

(** The hash of a user id, given as its UTF-16 code units. *)
Definition directorHash (userId : list Z) : Z := foldl hashStep 0%Z userId.

(** [DIRECTORS[Math.abs(hash) % DIRECTORS.length]] *)
Definition getDirectorName (userId : list Z) : option string :=
  DIRECTORS !! Z.to_nat (Z.abs (directorHash userId)
                         `mod` Z.of_nat (length DIRECTORS))%Z.

(** The code units of a string of one-byte characters. *)
Definition codeUnits (s : string) : list Z :=
  (fun b => Z.of_N (Ascii.N_of_ascii b)) <$> String.list_ascii_of_string s.

(** The polynomial with base 31 over the code units. *)
Definition poly31 (userId : list Z) : Z :=
  foldl (fun h c => 31 * h + c)%Z 0%Z userId.

(** ** [PartyResults]: titles normalised for matching *)

(** A string is the list of its UTF-16 code units.  [[a-z0-9]]: *)
Definition isAlnum (c : Z) : bool :=
  bool_decide ((48 ≤ c ∧ c ≤ 57) ∨ (97 ≤ c ∧ c ≤ 122))%Z.

(** [replace(/[^a-z0-9]+/g, ' ')]: every maximal run of other code units
    becomes one space; [inRun] tells that the unit before was in a run. *)
Fixpoint replaceRuns (inRun : bool) (s : list Z) : list Z :=
  match s with
  | [] => []
  | c :: rest =>
      if isAlnum c then c :: replaceRuns false rest
      else if inRun then replaceRuns true rest
      else 32%Z :: replaceRuns true rest
  end.

(** White space and line terminators, as [trim] strips them. *)
Definition isWhiteSpace (c : Z) : bool :=
  bool_decide (c ∈ [9; 10; 11; 12; 13; 32; 160; 5760; 8232; 8233; 8239; 8287;
                    12288; 65279]%Z
               ∨ (8192 ≤ c ∧ c ≤ 8202)%Z).

Fixpoint trimStart (s : list Z) : list Z :=
  match s with
  | [] => []
  | c :: rest => if isWhiteSpace c then trimStart rest else s
  end.

Fixpoint trimEnd (s : list Z) : list Z :=
  match s with
  | [] => []
  | c :: rest =>
      match trimEnd rest with
      | [] => if isWhiteSpace c then [] else [c]
      | rest' => c :: rest'
      end
  end.

(** [s.trim()] *)
Definition trim (s : list Z) : list Z := trimEnd (trimStart s).

(** [s.toLowerCase().replace(/[^a-z0-9]+/g, ' ').trim()], with the
    case mapping of the language as the parameter [toLowerCase]. *)
Definition normalizeTitle (toLowerCase : list Z -> list Z) (s : list Z)
  : list Z :=
  trim (replaceRuns false (toLowerCase s)).

(** Letters, digits and single spaces; [afterSpace] tells that the unit
    before was a space, so that no space may follow. *)
Fixpoint wellSpaced (afterSpace : bool) (s : list Z) : Prop :=
  match s with
  | [] => True
  | c :: rest =>
      (isAlnum c = true ∧ wellSpaced false rest)
      ∨ (c = 32%Z ∧ afterSpace = false ∧ wellSpaced true rest)
  end.

(** Words of letters and digits with one space between them: no space
    first, no space last. *)
Definition cleanTitle (s : list Z) : Prop :=
  wellSpaced true s ∧ last s ≠ Some 32%Z.

(** ** Sample data *)

(** The movies of the test page, as rows of one party. *)
Definition movieRow (k t : string) (e : Q) (x : option Qc) : PartyMovie :=
  {| party_id := "party"; movie_id := k; title := t;
     expected_score := Q2Qc e; elo_rating := x |}.

Definition exampleMovies : list PartyMovie :=
  [ movieRow "m1" "Dune: Part Two" (85 # 100) None;
    movieRow "m2" "The Godfather" (60 # 100) None;
    movieRow "m3" "Oppenheimer" (75 # 100) None;
    movieRow "m4" "Little Miss Sunshine" (30 # 100) None ].

Definition swipeOn (k : string) (d : Direction) : Swipe :=
  {| swipe_movie_id := k; direction := d |}.

Definition rated (t : string) (x : Z) : TitleElo :=
  {| te_title := t; te_elo := Qc_of_Z x |}.

(** Three stored rows of one party; B and A carry the same rating and B
    was stored first. *)
Definition tiedRows : list PartyMovie :=
  [ movieRow "m2" "B" (1 # 2) (Some (Qc_of_Z 1200));
    movieRow "m3" "C" (1 # 2) (Some (Qc_of_Z 1300));
    movieRow "m1" "A" (1 # 2) (Some (Qc_of_Z 1200)) ].

Definition tiedDb : Db :=
  {| party_movies := tiedRows; party_members := []; user_swipes := [] |}.

(** The worked scenario of the specification: two candidates, member 1
    accepts A and rejects B, member 2 rejects A and never sees B. *)
Definition scenarioMovies : list PartyMovie :=
  [ movieRow "a" "A" (1 # 2) None; movieRow "b" "B" (4 # 5) None ].

Definition scenarioVectors : list (list TitleElo) :=
  normalizeVectors codeUnitCompare
    [ js_sort (byTitle codeUnitCompare)
        (calculateMemberElo scenarioMovies
           [swipeOn "a" SwipeRight; swipeOn "b" SwipeLeft]);
      js_sort (byTitle codeUnitCompare)
        (calculateMemberElo scenarioMovies [swipeOn "a" SwipeLeft]) ].

(** A party with two active members, one member who left, and a log with
    a swipe of a user who is not a member. *)
Definition sampleDb : Db :=
  {| party_movies :=
       [ movieRow "a" "A" (1 # 2) None;
         movieRow "b" "B" (4 # 5) (Some (Qc_of_Z 1250));
         {| party_id := "other"; movie_id := "a"; title := "A";
            expected_score := Q2Qc (1 # 2); elo_rating := None |} ];
     party_members :=
       [ {| member_party_id := "party"; member_user_id := "u1";
            status := "active" |};
         {| member_party_id := "party"; member_user_id := "u2";
            status := "active" |};
         {| member_party_id := "party"; member_user_id := "u3";
            status := "left" |} ];
     user_swipes :=
       [ {| row_party_id := "party"; row_user_id := "u1";
            row_movie_id := "a"; row_direction := SwipeRight |};
         {| row_party_id := "party"; row_user_id := "u2";
            row_movie_id := "a"; row_direction := SwipeLeft |};
         {| row_party_id := "party"; row_user_id := "u1";
            row_movie_id := "b"; row_direction := SwipeLeft |};
         {| row_party_id := "party"; row_user_id := "u3";
            row_movie_id := "b"; row_direction := SwipeRight |} ] |}.

(** A swipe store with one member who has swiped nine times. *)
Definition nineSwipes : list SwipeRow :=
  (fun k => {| row_party_id := "party"; row_user_id := "u1";
               row_movie_id := k; row_direction := SwipeRight |})
  <$> ["1"; "2"; "3"; "4"; "5"; "6"; "7"; "8"; "9"].

Definition sampleStore : SwipeStore :=
  {| swipe_rows := nineSwipes;
     member_progress :=
       [ {| progress_party_id := "party"; progress_user_id := "u1";
            swipes_completed := Some 9%Z; has_completed_swiping := false |};
         {| progress_party_id := "party"; progress_user_id := "u2";
            swipes_completed := None; has_completed_swiping := false |} ] |}.

(** A stand-in for [String] that is right on strings. *)
Definition sampleToStr (v : Json) : string :=
  match v with
  | JStr s => s
  | _ => "?"
  end.

(** One candidate whose expected score makes the order of two swipes
    visible in the last bits of the rating. *)
Definition roundingMovie : Double.PartyMovie :=
  {| Double.movie_id := "m"; Double.title := "M";
     Double.expected_score := 0x1.695493f1fb241p-2%float |}.

Definition otherMovie : Double.PartyMovie :=
  {| Double.movie_id := "n"; Double.title := "N";
     Double.expected_score := 0.5%float |}.


(** * Properties *)

(** ** Lists *)

Lemma fmap_ext_elem {A B} (f g : A -> B) (l : list A) :
  (forall x, x ∈ l -> f x = g x) -> f <$> l = g <$> l.
Proof. intros Hfg. apply Forall_fmap_ext, Forall_forall, Hfg. Qed.

Lemma fmap_id_elem {A} (f : A -> A) (l : list A) :
  (forall x, x ∈ l -> f x = x) -> f <$> l = l.
Proof.
  intros Hf. rewrite <-(list_fmap_id l) at 2. by apply fmap_ext_elem.
Qed.

(** ** The map *)

Section JsMapFacts.
Context {V : Type}.
Implicit Types (m : JsMap.t V) (k : string) (v : V).

Lemma get_set_eq m k v : JsMap.get k (JsMap.set k v m) = Some v.
Proof.
  induction m as [|[k' v'] m IH]; simpl.
  - by rewrite decide_True.
  - destruct (decide (k = k')) as [->|Hne]; simpl.
    + by rewrite decide_True.
    + by rewrite decide_False.
Qed.

Lemma get_set_ne m k k' v :
  k ≠ k' -> JsMap.get k (JsMap.set k' v m) = JsMap.get k m.
Proof.
  intros Hne. induction m as [|[k0 v0] m IH]; simpl.
  - by rewrite decide_False.
  - destruct (decide (k' = k0)) as [->|Hne']; simpl.
    + by rewrite !decide_False.
    + destruct (decide (k = k0)); done.
Qed.

Lemma get_None_keys m k : JsMap.get k m = None <-> k ∉ JsMap.keys m.
Proof.
  unfold JsMap.keys. induction m as [|[k' v'] m IH]; simpl.
  - split; [intros _; apply not_elem_of_nil | done].
  - rewrite not_elem_of_cons. destruct (decide (k = k')); [|tauto].
    split; [done | intros [? _]; done].
Qed.

Lemma get_Some_keys m k : is_Some (JsMap.get k m) <-> k ∈ JsMap.keys m.
Proof.
  rewrite <-not_eq_None_Some, get_None_keys.
  split; [apply dec_stable | auto].
Qed.

Lemma get_Some_elem m k v : JsMap.get k m = Some v -> (k, v) ∈ m.
Proof.
  induction m as [|[k' v'] m IH]; simpl; [done|].
  destruct (decide (k = k')) as [->|]; intros ?; simplify_eq.
  - left.
  - right; auto.
Qed.

Lemma elem_get_Some m k v :
  NoDup (JsMap.keys m) -> (k, v) ∈ m -> JsMap.get k m = Some v.
Proof.
  unfold JsMap.keys. induction m as [|[k' v'] m IH]; simpl.
  - by intros _ ?%elem_of_nil.
  - intros [Hnotin Hnd]%NoDup_cons [Heq|Hin]%elem_of_cons.
    + simplify_eq. by rewrite decide_True.
    + rewrite decide_False; [auto|].
      intros ->. apply Hnotin. by apply (list_elem_of_fmap_2 fst _ (k', v)).
Qed.

Lemma keys_set m k v :
  JsMap.keys (JsMap.set k v m)
  = if decide (k ∈ JsMap.keys m) then JsMap.keys m else JsMap.keys m ++ [k].
Proof.
  unfold JsMap.keys. induction m as [|[k' v'] m IH].
  - destruct (decide (k ∈ [])) as [Hin|_]; [by apply elem_of_nil in Hin | done].
  - cbn [JsMap.set]. destruct (decide (k = k')) as [->|Hne].
    + destruct (decide (k' ∈ ((k', v') :: m).*1)) as [_|Hnin]; [done|].
      exfalso. apply Hnin. left.
    + rewrite !fmap_cons, IH. cbn [fst].
      destruct (decide (k ∈ m.*1)) as [Hin|Hnin];
        destruct (decide (k ∈ k' :: m.*1)) as [Hin'|Hnin']; try done.
      * exfalso. apply Hnin'. by right.
      * apply elem_of_cons in Hin' as [?|?]; done.
Qed.

Lemma keys_set_NoDup m k v :
  NoDup (JsMap.keys m) -> NoDup (JsMap.keys (JsMap.set k v m)).
Proof.
  intros Hnd. rewrite keys_set. case_decide; [done|].
  apply NoDup_app. split_and!; [done| |apply NoDup_singleton].
  intros x Hx ->%list_elem_of_singleton. done.
Qed.

Lemma keys_set_elem m k k' v :
  k ∈ JsMap.keys (JsMap.set k' v m) <-> k = k' ∨ k ∈ JsMap.keys m.
Proof.
  rewrite keys_set. destruct (decide (k' ∈ JsMap.keys m)) as [Hin|Hnin].
  - split; [by right | intros [->|?]; done].
  - rewrite elem_of_app, list_elem_of_singleton. tauto.
Qed.

Lemma values_set_Forall (P : V -> Prop) m k v :
  P v -> Forall P (JsMap.values m) -> Forall P (JsMap.values (JsMap.set k v m)).
Proof.
  unfold JsMap.values. intros Hv. induction m as [|[k' v'] m IH]; simpl.
  - intros _. by constructor.
  - intros [Hv' Hm]%Forall_cons. case_decide; simpl; constructor; auto.
Qed.

End JsMapFacts.

Lemma keys_mapEntries {V W} (g : string -> V -> W) (m : JsMap.t V) :
  JsMap.keys (mapEntries g m) = JsMap.keys m.
Proof.
  unfold JsMap.keys, mapEntries. rewrite <-list_fmap_compose.
  by apply fmap_ext_elem.
Qed.

Lemma get_mapEntries {V W} (g : string -> V -> W) (m : JsMap.t V) k :
  JsMap.get k (mapEntries g m) = g k <$> JsMap.get k m.
Proof.
  induction m as [|[k' v'] m IH]; [done|].
  cbn. destruct (decide (k = k')) as [->|]; [done | apply IH].
Qed.

Lemma mapEntries_compose {U V W} (g : string -> V -> W) (h : string -> U -> V)
    (m : JsMap.t U) :
  mapEntries g (mapEntries h m) = mapEntries (fun k u => g k (h k u)) m.
Proof. unfold mapEntries. by rewrite <-list_fmap_compose. Qed.

Lemma mapEntries_ext {V W} (g h : string -> V -> W) (m : JsMap.t V) :
  (forall k v, k ∈ JsMap.keys m -> g k v = h k v) ->
  mapEntries g m = mapEntries h m.
Proof.
  intros Hgh. unfold mapEntries. apply fmap_ext_elem.
  intros [k v] Hin. cbn. f_equal. apply Hgh.
  by apply (list_elem_of_fmap_2 fst _ (k, v)).
Qed.

Lemma mapEntries_id {V} (g : string -> V -> V) (m : JsMap.t V) :
  (forall k v, k ∈ JsMap.keys m -> g k v = v) -> mapEntries g m = m.
Proof.
  intros Hg. unfold mapEntries. apply fmap_id_elem.
  intros [k v] Hin. cbn. f_equal. apply Hg.
  by apply (list_elem_of_fmap_2 fst _ (k, v)).
Qed.

(** Reading the value under a key and storing a changed value under the
    same key rewrites that entry and no other. *)
Lemma get_set_mapEntries {V} (f : V -> V) (m : JsMap.t V) (k : string) :
  NoDup (JsMap.keys m) ->
  match JsMap.get k m with
  | Some v => JsMap.set k (f v) m
  | None => m
  end
  = mapEntries (fun k' v => if decide (k = k') then f v else v) m.
Proof.
  unfold JsMap.keys. induction m as [|[k' v'] m IH]; [done|].
  rewrite fmap_cons, NoDup_cons. cbn [fst]. intros [Hnotin Hnd].
  specialize (IH Hnd). unfold mapEntries in *.
  rewrite fmap_cons. cbn [JsMap.get JsMap.set fst snd].
  destruct (decide (k = k')) as [Heq|Hne].
  - rewrite Heq. f_equal. symmetry. apply fmap_id_elem.
    intros [k0 v0] Hin. cbn. rewrite decide_False; [done|].
    intros <-. apply Hnotin. by apply (list_elem_of_fmap_2 fst _ (k', v0)).
  - destruct (JsMap.get k m) as [v|].
    + by rewrite IH.
    + by rewrite <-IH.
Qed.

(** ** The Member Scorer *)

Section Scorer.
Implicit Types (m : JsMap.t MovieRating) (s : Swipe) (k : string).
Implicit Types (movies : list PartyMovie) (swipes : list Swipe).

Lemma applySwipe_unknown m s :
  swipe_movie_id s ∉ JsMap.keys m -> applySwipe m s = m.
Proof.
  intros Hk%get_None_keys. unfold applySwipe. by rewrite Hk.
Qed.

Lemma applySwipe_keys m s : JsMap.keys (applySwipe m s) = JsMap.keys m.
Proof.
  unfold applySwipe.
  destruct (JsMap.get (swipe_movie_id s) m) as [r|] eqn:Hget; [|done].
  rewrite keys_set, decide_True; [done|].
  apply get_Some_keys. by exists r.
Qed.

Lemma movieRatings_keys_foldl m swipes :
  JsMap.keys (foldl applySwipe m swipes) = JsMap.keys m.
Proof.
  revert m. induction swipes as [|s swipes IH]; intros m; [done|].
  cbn [foldl]. by rewrite IH, applySwipe_keys.
Qed.

(** One swipe rewrites the entry of its movie id and no other. *)
Lemma applySwipe_mapEntries m s :
  NoDup (JsMap.keys m) -> applySwipe m s = mapEntries (swipeEntry s) m.
Proof. apply get_set_mapEntries. Qed.

Lemma foldl_applySwipe_mapEntries m swipes :
  NoDup (JsMap.keys m) ->
  foldl applySwipe m swipes = mapEntries (replay swipes) m.
Proof.
  revert m. induction swipes as [|s swipes IH]; intros m Hnd; cbn.
  - symmetry. by apply mapEntries_id.
  - rewrite IH by (by rewrite applySwipe_keys).
    rewrite applySwipe_mapEntries by done.
    by rewrite mapEntries_compose.
Qed.

Lemma bump_elo d r :
  bump d r
  = {| elo := elo r + K_FACTOR * (actualScore d - mr_expected_score r);
       mr_expected_score := mr_expected_score r;
       mr_title := mr_title r |}.
Proof. done. Qed.

(** A replay adds the deltas of the swipes on [k]; the prior and the title
    never change. *)
Lemma replay_sumDeltas swipes k r :
  replay swipes k r
  = {| elo := elo r + sumDeltas k (mr_expected_score r) swipes;
       mr_expected_score := mr_expected_score r;
       mr_title := mr_title r |}.
Proof.
  revert r. induction swipes as [|s swipes IH]; intros r; cbn.
  - destruct r; cbn. f_equal. ring.
  - unfold replay in IH. rewrite IH. unfold swipeEntry.
    destruct (decide (swipe_movie_id s = k)); cbn; f_equal; ring.
Qed.

Lemma sumDeltas_Permutation k e swipes swipes' :
  swipes ≡ₚ swipes' -> sumDeltas k e swipes = sumDeltas k e swipes'.
Proof.
  induction 1 as [|s l l' _ IH|s1 s2 l|l1 l2 l3 _ IH1 _ IH2]; cbn.
  - done.
  - by rewrite IH.
  - ring.
  - by rewrite IH1.
Qed.

Lemma sumDeltas_no_hit k e swipes :
  k ∉ swipe_movie_id <$> swipes -> sumDeltas k e swipes = 0.
Proof.
  induction swipes as [|s swipes IH]; [done|].
  rewrite fmap_cons, not_elem_of_cons. intros [Hne Hnin]. cbn.
  rewrite decide_False by done. rewrite IH by done. ring.
Qed.

(** The first loop. *)
Lemma initRatings_snoc movies movie :
  initRatings (movies ++ [movie])
  = JsMap.set (movie_id movie) (baseRating movie) (initRatings movies).
Proof. unfold initRatings. by rewrite foldl_app. Qed.

Lemma initRatings_NoDup movies : NoDup (JsMap.keys (initRatings movies)).
Proof.
  induction movies as [|movie movies IH] using rev_ind.
  - constructor.
  - rewrite initRatings_snoc. by apply keys_set_NoDup.
Qed.

Lemma initRatings_keys movies k :
  k ∈ JsMap.keys (initRatings movies) <-> k ∈ movie_id <$> movies.
Proof.
  induction movies as [|movie movies IH] using rev_ind.
  - done.
  - rewrite initRatings_snoc, keys_set_elem, fmap_app, elem_of_app, IH.
    cbn. rewrite list_elem_of_singleton. tauto.
Qed.

Lemma initRatings_base movies :
  Forall (fun r => elo r = BASE_ELO) (JsMap.values (initRatings movies)).
Proof.
  induction movies as [|movie movies IH] using rev_ind.
  - constructor.
  - rewrite initRatings_snoc. by apply values_set_Forall.
Qed.

Lemma initRatings_get_base movies k r :
  JsMap.get k (initRatings movies) = Some r -> elo r = BASE_ELO.
Proof.
  intros Hget%get_Some_elem.
  pose proof (initRatings_base movies) as Hall.
  rewrite Forall_forall in Hall. apply Hall.
  by apply (list_elem_of_fmap_2 snd _ (k, r)).
Qed.

(** With distinct movie ids the map lists the movies as they come. *)
Lemma initRatings_distinct movies :
  NoDup (movie_id <$> movies) ->
  initRatings movies = (fun movie => (movie_id movie, baseRating movie)) <$> movies.
Proof.
  induction movies as [|movie movies IH] using rev_ind; [done|].
  rewrite fmap_app, NoDup_app. intros (Hnd & Hdisj & _).
  rewrite initRatings_snoc, fmap_app, IH by done. cbn.
  assert (movie_id movie ∉ movie_id <$> movies) as Hnin.
  { intros Hin. apply (Hdisj _ Hin). left. }
  clear -Hnin. induction movies as [|m0 movies IH]; [done|].
  rewrite fmap_cons, not_elem_of_cons in Hnin. destruct Hnin as [Hne Hnin].
  cbn. rewrite decide_False by done. by rewrite IH.
Qed.

(** The closed form of the map after both loops. *)
Lemma movieRatings_closed movies swipes :
  movieRatings movies swipes = mapEntries (replay swipes) (initRatings movies).
Proof. apply foldl_applySwipe_mapEntries, initRatings_NoDup. Qed.

Lemma movieRatings_keys movies swipes :
  JsMap.keys (movieRatings movies swipes) = JsMap.keys (initRatings movies).
Proof. apply movieRatings_keys_foldl. Qed.

Lemma movieRatings_get movies swipes k :
  JsMap.get k (movieRatings movies swipes)
  = replay swipes k <$> JsMap.get k (initRatings movies).
Proof. by rewrite movieRatings_closed, get_mapEntries. Qed.

Lemma calculateMemberElo_length movies swipes :
  length (calculateMemberElo movies swipes)
  = length (JsMap.keys (initRatings movies)).
Proof.
  unfold calculateMemberElo, JsMap.values.
  rewrite <-(movieRatings_keys movies swipes). unfold JsMap.keys.
  by rewrite !length_fmap.
Qed.

End Scorer.

Section ScorerClaims.
Implicit Types (movies : list PartyMovie) (swipes : list Swipe) (s : Swipe).

Lemma calculateMemberElo_entries movies swipes :
  calculateMemberElo movies swipes
  = (fun kr => toTitleElo kr.2) <$> movieRatings movies swipes.
Proof.
  unfold calculateMemberElo, JsMap.values. by rewrite <-list_fmap_compose.
Qed.

(** With distinct movie ids the output lists the movies in order, each at
    the base rating plus the deltas of its swipes. *)
Lemma calculateMemberElo_distinct movies swipes :
  NoDup (movie_id <$> movies) ->
  calculateMemberElo movies swipes
  = (fun c => {| te_title := title c;
                 te_elo := BASE_ELO
                           + sumDeltas (movie_id c) (expected_score c) swipes |})
    <$> movies.
Proof.
  intros Hnd. rewrite calculateMemberElo_entries, movieRatings_closed.
  rewrite initRatings_distinct by done. unfold mapEntries.
  rewrite <-!list_fmap_compose. apply fmap_ext_elem. intros c _. cbn.
  by rewrite replay_sumDeltas.
Qed.

(** C1. A swipe on a candidate whose current entry is [r] leaves the entry
    with rating [elo r + 32 * (a - e)], where [e] is the candidate's fixed
    expected score and [a] is 1 for a right swipe and 0 for a left swipe;
    the prior, the title and every other candidate's entry are unchanged.
    As the first swipe of a member it yields [1200 + 32 * (1 - e)] for an
    accept and [1200 + 32 * (0 - e)] for a reject. *)
Theorem swipe_adds_K_times_actual_minus_expected movies swipes s r :
  JsMap.get (swipe_movie_id s) (movieRatings movies swipes) = Some r ->
  JsMap.get (swipe_movie_id s) (movieRatings movies (swipes ++ [s]))
  = Some {| elo := elo r
                   + Qc_of_Z 32
                     * ((match direction s with SwipeRight => 1 | SwipeLeft => 0 end)
                        - mr_expected_score r);
            mr_expected_score := mr_expected_score r;
            mr_title := mr_title r |}
  ∧ (forall k, k ≠ swipe_movie_id s ->
       JsMap.get k (movieRatings movies (swipes ++ [s]))
       = JsMap.get k (movieRatings movies swipes))
  ∧ (swipes = [] ->
       JsMap.get (swipe_movie_id s) (movieRatings movies [s])
       = Some {| elo := match direction s with
                        | SwipeRight =>
                            Qc_of_Z 1200 + Qc_of_Z 32 * (1 - mr_expected_score r)
                        | SwipeLeft =>
                            Qc_of_Z 1200 + Qc_of_Z 32 * (0 - mr_expected_score r)
                        end;
                 mr_expected_score := mr_expected_score r;
                 mr_title := mr_title r |}).
Proof.
  intros Hget.
  assert (forall k, JsMap.get k (movieRatings movies (swipes ++ [s]))
                    = swipeEntry s k <$> JsMap.get k (movieRatings movies swipes))
    as Hstep.
  { intros k. unfold movieRatings at 1. rewrite foldl_app. cbn [foldl].
    fold (movieRatings movies swipes).
    rewrite applySwipe_mapEntries, get_mapEntries; [done|].
    rewrite movieRatings_keys. apply initRatings_NoDup. }
  split_and!.
  - rewrite Hstep, Hget. cbn. unfold swipeEntry.
    rewrite decide_True by done. rewrite bump_elo.
    by destruct (direction s).
  - intros k Hne. rewrite Hstep.
    destruct (JsMap.get k (movieRatings movies swipes)) as [r'|]; [|done].
    cbn. unfold swipeEntry. by rewrite decide_False.
  - intros ->. specialize (Hstep (swipe_movie_id s)). cbn [app] in Hstep.
    rewrite Hstep, Hget. cbn. unfold swipeEntry.
    rewrite decide_True by done. rewrite bump_elo.
    apply initRatings_get_base in Hget. rewrite Hget.
    by destruct (direction s).
Qed.

Lemma swipe_adds_K_times_actual_minus_expected_witness :
  JsMap.get "m1" (movieRatings exampleMovies [swipeOn "m2" SwipeLeft])
  = Some (baseRating (movieRow "m1" "Dune: Part Two" (85 # 100) None))
  ∧ JsMap.get "m1"
      (movieRatings exampleMovies
         [swipeOn "m2" SwipeLeft; swipeOn "m1" SwipeRight])
    = Some {| elo := BASE_ELO + Qc_of_Z 32 * (1 - Q2Qc (85 # 100));
              mr_expected_score := Q2Qc (85 # 100);
              mr_title := "Dune: Part Two" |}.
Proof.
  split; [reflexivity|].
  exact (proj1 (swipe_adds_K_times_actual_minus_expected exampleMovies
                  [swipeOn "m2" SwipeLeft] (swipeOn "m1" SwipeRight)
                  (baseRating (movieRow "m1" "Dune: Part Two" (85 # 100) None))
                  eq_refl)).
Defined.

(** In exact arithmetic the output does not depend on the order of the
    swipes: a permutation of the swipe list gives the same vector, and
    every entry holds the base rating plus the sum of the deltas
    [32 * (a - e)] of the swipes on its candidate. *)
Lemma exact_sum_of_deltas_in_any_order movies swipes swipes' :
  swipes ≡ₚ swipes' ->
  calculateMemberElo movies swipes = calculateMemberElo movies swipes'
  ∧ (forall k r,
       JsMap.get k (movieRatings movies swipes') = Some r ->
       exists r0,
         JsMap.get k (initRatings movies) = Some r0
         ∧ elo r = Qc_of_Z 1200 + sumDeltas k (mr_expected_score r0) swipes
         ∧ elo r = Qc_of_Z 1200 + sumDeltas k (mr_expected_score r0) swipes').
Proof.
  intros Hperm. split.
  - rewrite !calculateMemberElo_entries, !movieRatings_closed. f_equal.
    apply mapEntries_ext. intros k r _. rewrite !replay_sumDeltas.
    by rewrite (sumDeltas_Permutation _ _ _ _ Hperm).
  - intros k r. rewrite movieRatings_get.
    destruct (JsMap.get k (initRatings movies)) as [r0|] eqn:Hget; [|done].
    cbn. intros [= <-]. exists r0. rewrite replay_sumDeltas. cbn.
    apply initRatings_get_base in Hget. rewrite Hget.
    by rewrite (sumDeltas_Permutation _ _ _ _ Hperm).
Qed.

(** C5. Whatever the member swiped, the scorer's map has exactly the movie
    ids of the candidate list as its keys, each once; the output vector has
    one entry per key, in the same order; an entry whose candidate got no
    swipe holds 1200.  With distinct movie ids the output titles are the
    candidate titles, one by one. *)
Theorem scorer_output_covers_every_candidate movies swipes :
  NoDup (JsMap.keys (movieRatings movies swipes))
  ∧ (forall k, k ∈ JsMap.keys (movieRatings movies swipes)
               <-> k ∈ movie_id <$> movies)
  ∧ calculateMemberElo movies swipes
    = (fun kr => toTitleElo kr.2) <$> movieRatings movies swipes
  ∧ (forall k r,
       JsMap.get k (movieRatings movies swipes) = Some r ->
       k ∉ swipe_movie_id <$> swipes -> elo r = Qc_of_Z 1200)
  ∧ (NoDup (movie_id <$> movies) ->
       titlesOf (calculateMemberElo movies swipes) = title <$> movies).
Proof.
  split_and!.
  - rewrite movieRatings_keys. apply initRatings_NoDup.
  - intros k. rewrite movieRatings_keys. apply initRatings_keys.
  - apply calculateMemberElo_entries.
  - intros k r. rewrite movieRatings_get.
    destruct (JsMap.get k (initRatings movies)) as [r0|] eqn:Hget; [|done].
    cbn. intros [= <-] Hnin. rewrite replay_sumDeltas. cbn.
    rewrite sumDeltas_no_hit by done.
    apply initRatings_get_base in Hget. rewrite Hget.
    unfold BASE_ELO. ring.
  - intros Hnd. rewrite calculateMemberElo_distinct by done.
    unfold titlesOf. rewrite <-list_fmap_compose. by apply fmap_ext_elem.
Qed.

(** C6. A swipe whose movie id is not among the candidates changes
    nothing: the scorer returns the vector it returns without that swipe
    (and it returns a vector, the function is total). *)
Theorem unknown_swipe_is_ignored movies before s after :
  swipe_movie_id s ∉ movie_id <$> movies ->
  calculateMemberElo movies (before ++ s :: after)
  = calculateMemberElo movies (before ++ after).
Proof.
  intros Hunknown. unfold calculateMemberElo, movieRatings.
  rewrite !foldl_app. cbn [foldl]. rewrite applySwipe_unknown; [done|].
  rewrite movieRatings_keys_foldl. by rewrite initRatings_keys.
Qed.

Lemma unknown_swipe_is_ignored_witness :
  ("m9" ∉ movie_id <$> exampleMovies)
  ∧ calculateMemberElo exampleMovies
      [swipeOn "m1" SwipeRight; swipeOn "m9" SwipeLeft; swipeOn "m2" SwipeLeft]
    = calculateMemberElo exampleMovies
      [swipeOn "m1" SwipeRight; swipeOn "m2" SwipeLeft].
Proof.
  assert ("m9" ∉ movie_id <$> exampleMovies) as Hunknown.
  { apply (bool_decide_unpack _). vm_compute. exact I. }
  split; [exact Hunknown|].
  exact (unknown_swipe_is_ignored exampleMovies [swipeOn "m1" SwipeRight]
           (swipeOn "m9" SwipeLeft) [swipeOn "m2" SwipeLeft] Hunknown).
Defined.

(** C7. For a member with no swipes every entry of the output holds
    exactly 1200: every candidate has an entry, and with distinct movie ids
    the output is the candidate list with 1200 at each title. *)
Theorem no_swipes_gives_all_baseline movies :
  Forall (fun e => te_elo e = Qc_of_Z 1200) (calculateMemberElo movies [])
  ∧ (forall c, c ∈ movies ->
       exists r, JsMap.get (movie_id c) (movieRatings movies []) = Some r
                 ∧ elo r = Qc_of_Z 1200)
  ∧ (NoDup (movie_id <$> movies) ->
       calculateMemberElo movies []
       = (fun c => {| te_title := title c; te_elo := Qc_of_Z 1200 |}) <$> movies).
Proof.
  split_and!.
  - unfold calculateMemberElo, movieRatings. cbn [foldl].
    apply Forall_fmap. eapply Forall_impl; [apply initRatings_base|].
    by intros r Hr.
  - intros c Hc. unfold movieRatings. cbn [foldl].
    assert (is_Some (JsMap.get (movie_id c) (initRatings movies))) as [r Hr].
    { apply get_Some_keys, initRatings_keys. by apply list_elem_of_fmap_2. }
    exists r. split; [done|]. by apply initRatings_get_base in Hr.
  - intros Hnd. rewrite calculateMemberElo_distinct by done.
    apply fmap_ext_elem. intros c _. cbn. f_equal. unfold BASE_ELO. ring.
Qed.

End ScorerClaims.

(** ** The Member Scorer on doubles *)

Section DoubleScorer.
Implicit Types (m : JsMap.t Double.MovieRating) (s : Swipe) (k : string).
Implicit Types (movies : list Double.PartyMovie) (swipes : list Swipe).

Lemma double_applySwipe_keys m s :
  JsMap.keys (Double.applySwipe m s) = JsMap.keys m.
Proof.
  unfold Double.applySwipe.
  destruct (JsMap.get (swipe_movie_id s) m) as [r|] eqn:Hget; [|done].
  rewrite keys_set, decide_True; [done|].
  apply get_Some_keys. by exists r.
Qed.

Lemma double_applySwipe_mapEntries m s :
  NoDup (JsMap.keys m) ->
  Double.applySwipe m s = mapEntries (Double.swipeEntry s) m.
Proof. apply get_set_mapEntries. Qed.

Lemma double_foldl_applySwipe m swipes :
  NoDup (JsMap.keys m) ->
  foldl Double.applySwipe m swipes = mapEntries (Double.replay swipes) m.
Proof.
  revert m. induction swipes as [|s swipes IH]; intros m Hnd; cbn.
  - symmetry. by apply mapEntries_id.
  - rewrite IH by (by rewrite double_applySwipe_keys).
    rewrite double_applySwipe_mapEntries by done.
    by rewrite mapEntries_compose.
Qed.

Lemma double_initRatings_snoc movies movie :
  Double.initRatings (movies ++ [movie])
  = JsMap.set (Double.movie_id movie) (Double.baseRating movie)
      (Double.initRatings movies).
Proof. unfold Double.initRatings. by rewrite foldl_app. Qed.

Lemma double_initRatings_NoDup movies :
  NoDup (JsMap.keys (Double.initRatings movies)).
Proof.
  induction movies as [|movie movies IH] using rev_ind.
  - constructor.
  - rewrite double_initRatings_snoc. by apply keys_set_NoDup.
Qed.

Lemma double_initRatings_get_base movies k r :
  JsMap.get k (Double.initRatings movies) = Some r ->
  Double.elo r = 1200%float.
Proof.
  intros Hget%get_Some_elem.
  assert (Forall (fun r => Double.elo r = 1200%float)
            (JsMap.values (Double.initRatings movies))) as Hall.
  { clear. induction movies as [|movie movies IH] using rev_ind.
    - constructor.
    - rewrite double_initRatings_snoc. by apply values_set_Forall. }
  rewrite Forall_forall in Hall. apply Hall.
  by apply (list_elem_of_fmap_2 snd _ (k, r)).
Qed.

(** The closed form of the map after both loops. *)
Lemma double_movieRatings_closed movies swipes :
  Double.movieRatings movies swipes
  = mapEntries (Double.replay swipes) (Double.initRatings movies).
Proof. apply double_foldl_applySwipe, double_initRatings_NoDup. Qed.

Lemma double_movieRatings_get movies swipes k :
  JsMap.get k (Double.movieRatings movies swipes)
  = Double.replay swipes k <$> JsMap.get k (Double.initRatings movies).
Proof. by rewrite double_movieRatings_closed, get_mapEntries. Qed.

Lemma double_calculateMemberElo_entries movies swipes :
  Double.calculateMemberElo movies swipes
  = (fun kr => Double.toTitleElo kr.2) <$> Double.movieRatings movies swipes.
Proof.
  unfold Double.calculateMemberElo, JsMap.values.
  by rewrite <-list_fmap_compose.
Qed.

Lemma swipesOn_cons k s swipes :
  swipesOn k (s :: swipes)
  = if decide (swipe_movie_id s = k) then s :: swipesOn k swipes
    else swipesOn k swipes.
Proof. unfold swipesOn. by rewrite filter_cons. Qed.

(** The entry under [k] sees the swipes on [k] and no other, one after the
    other; the prior and the title never change. *)
Lemma double_replay_addDeltas swipes k r :
  Double.replay swipes k r
  = {| Double.elo :=
         Double.addDeltas (Double.mr_expected_score r) (Double.elo r)
           (swipesOn k swipes);
       Double.mr_expected_score := Double.mr_expected_score r;
       Double.mr_title := Double.mr_title r |}.
Proof.
  revert r. induction swipes as [|s swipes IH]; intros r.
  - by destruct r.
  - unfold Double.replay in *. cbn [foldl]. rewrite IH, swipesOn_cons.
    unfold Double.swipeEntry.
    by destruct (decide (swipe_movie_id s = k)).
Qed.

Lemma swipesOn_absent k swipes :
  k ∉ swipe_movie_id <$> swipes -> swipesOn k swipes = [].
Proof.
  intros Hnin. apply elem_of_nil_inv.
  intros s [Hk Hin]%list_elem_of_filter. apply Hnin. rewrite <-Hk.
  by apply list_elem_of_fmap_2.
Qed.

Lemma swipesOn_at_most_one k swipes :
  NoDup (swipe_movie_id <$> swipes) -> (length (swipesOn k swipes) ≤ 1)%nat.
Proof.
  induction swipes as [|s swipes IH]; [cbn; lia|].
  rewrite fmap_cons, NoDup_cons. intros [Hnin Hnd].
  rewrite swipesOn_cons. destruct (decide (swipe_movie_id s = k)) as [<-|].
  - by rewrite swipesOn_absent.
  - by apply IH.
Qed.

(** When no candidate is swiped twice, every reordering of the swipes
    keeps the swipes on each candidate as they are. *)
Lemma swipesOn_Permutation_NoDup k swipes swipes' :
  NoDup (swipe_movie_id <$> swipes) -> swipes ≡ₚ swipes' ->
  swipesOn k swipes = swipesOn k swipes'.
Proof.
  intros Hnd Hperm.
  assert (swipesOn k swipes ≡ₚ swipesOn k swipes') as Hp.
  { unfold swipesOn. by rewrite Hperm. }
  pose proof (swipesOn_at_most_one k swipes Hnd) as Hlen.
  destruct (swipesOn k swipes) as [|a [|b l]].
  - symmetry. by apply Permutation_nil_r.
  - symmetry. by apply Permutation_singleton_r.
  - cbn in Hlen. lia.
Qed.

Lemma double_scorer_swipesOn movies swipes swipes' :
  (forall k, swipesOn k swipes = swipesOn k swipes') ->
  Double.calculateMemberElo movies swipes
  = Double.calculateMemberElo movies swipes'.
Proof.
  intros Hon.
  rewrite !double_calculateMemberElo_entries, !double_movieRatings_closed.
  f_equal. apply mapEntries_ext. intros k r _.
  by rewrite !double_replay_addDeltas, Hon.
Qed.

End DoubleScorer.

(** C2, as the doubles of the program have it. The output of the Member
    Scorer is the same for two swipe lists that hold, for every candidate,
    the same swipes on it in the same order: every reordering of the
    member's swipes that keeps the order of the swipes on each single
    candidate, and so every reordering when no candidate is swiped twice.
    Every entry holds the base rating 1200 with the deltas [32 * (a - e)]
    of the swipes on its candidate added one after the other, each
    addition rounded.  In exact arithmetic the entry is 1200 plus the sum
    of these deltas and every permutation of the swipes gives the same
    vector. *)
Theorem scorer_invariant_when_order_per_candidate_is_kept
    (movies : list Double.PartyMovie) (swipes swipes' : list Swipe) :
  (forall k, swipesOn k swipes = swipesOn k swipes') ->
  Double.calculateMemberElo movies swipes
  = Double.calculateMemberElo movies swipes'
  ∧ (forall k r,
       JsMap.get k (Double.movieRatings movies swipes') = Some r ->
       exists r0,
         JsMap.get k (Double.initRatings movies) = Some r0
         ∧ Double.elo r
           = Double.addDeltas (Double.mr_expected_score r0) 1200%float
               (swipesOn k swipes)
         ∧ Double.elo r
           = Double.addDeltas (Double.mr_expected_score r0) 1200%float
               (swipesOn k swipes'))
  ∧ (forall sw sw',
       NoDup (swipe_movie_id <$> sw) -> sw ≡ₚ sw' ->
       Double.calculateMemberElo movies sw
       = Double.calculateMemberElo movies sw')
  ∧ (forall (exact : list PartyMovie) sw sw',
       sw ≡ₚ sw' ->
       calculateMemberElo exact sw = calculateMemberElo exact sw'
       ∧ (forall k r,
            JsMap.get k (movieRatings exact sw') = Some r ->
            exists r0,
              JsMap.get k (initRatings exact) = Some r0
              ∧ elo r = Qc_of_Z 1200 + sumDeltas k (mr_expected_score r0) sw
              ∧ elo r = Qc_of_Z 1200 + sumDeltas k (mr_expected_score r0) sw')).
Proof.
  intros Hon. split_and!.
  - by apply double_scorer_swipesOn.
  - intros k r. rewrite double_movieRatings_get.
    destruct (JsMap.get k (Double.initRatings movies)) as [r0|] eqn:Hget;
      [|done].
    cbn. intros [= <-]. exists r0. rewrite double_replay_addDeltas. cbn.
    apply double_initRatings_get_base in Hget. by rewrite Hget, Hon.
  - intros sw sw' Hnd Hperm. apply double_scorer_swipesOn. intros k.
    by apply swipesOn_Permutation_NoDup.
  - intros exact sw sw' Hperm.
    by apply exact_sum_of_deltas_in_any_order.
Qed.

Lemma scorer_invariant_when_order_per_candidate_is_kept_witness :
  (forall k,
     swipesOn k [swipeOn "m" SwipeRight; swipeOn "n" SwipeLeft;
                 swipeOn "m" SwipeLeft]
     = swipesOn k [swipeOn "m" SwipeRight; swipeOn "m" SwipeLeft;
                   swipeOn "n" SwipeLeft])
  ∧ Double.calculateMemberElo [roundingMovie; otherMovie]
      [swipeOn "m" SwipeRight; swipeOn "n" SwipeLeft; swipeOn "m" SwipeLeft]
    = Double.calculateMemberElo [roundingMovie; otherMovie]
      [swipeOn "m" SwipeRight; swipeOn "m" SwipeLeft; swipeOn "n" SwipeLeft].
Proof.
  assert (forall k,
     swipesOn k [swipeOn "m" SwipeRight; swipeOn "n" SwipeLeft;
                 swipeOn "m" SwipeLeft]
     = swipesOn k [swipeOn "m" SwipeRight; swipeOn "m" SwipeLeft;
                   swipeOn "n" SwipeLeft]) as Hon.
  { intros k. rewrite !swipesOn_cons. cbn.
    destruct (decide ("m" = k)) as [<-|]; [done|].
    by destruct (decide ("n" = k)). }
  split; [exact Hon|].
  exact (proj1 (scorer_invariant_when_order_per_candidate_is_kept
                  [roundingMovie; otherMovie] _ _ Hon)).
Defined.

(** C2 as stated fails on the doubles: a right swipe and a left swipe on
    one candidate of expected score 0.3528617016261571 leave it at
    1209.416851095926 in this order and at 1209.4168510959257 in the
    other: the two sums differ in the last bit, since each [+=] rounds. *)
Lemma scorer_order_of_two_swipes_changes_the_double :
  [swipeOn "m" SwipeRight; swipeOn "m" SwipeLeft]
  ≡ₚ [swipeOn "m" SwipeLeft; swipeOn "m" SwipeRight]
  ∧ Double.calculateMemberElo [roundingMovie]
      [swipeOn "m" SwipeRight; swipeOn "m" SwipeLeft]
    = [ {| Double.te_title := "M"; Double.te_elo := 0x1.2e5aadb038137p+10%float |} ]
  ∧ Double.calculateMemberElo [roundingMovie]
      [swipeOn "m" SwipeLeft; swipeOn "m" SwipeRight]
    = [ {| Double.te_title := "M"; Double.te_elo := 0x1.2e5aadb038136p+10%float |} ]
  ∧ Double.calculateMemberElo [roundingMovie]
      [swipeOn "m" SwipeRight; swipeOn "m" SwipeLeft]
    ≠ Double.calculateMemberElo [roundingMovie]
      [swipeOn "m" SwipeLeft; swipeOn "m" SwipeRight].
Proof.
  split_and!.
  - apply perm_swap.
  - by vm_compute.
  - by vm_compute.
  - intros Heq.
    assert (PrimFloat.eqb 0x1.2e5aadb038137p+10%float 0x1.2e5aadb038136p+10%float = true) as Hb.
    { revert Heq. vm_compute. by intros [= ->]. }
    vm_compute in Hb. discriminate.
Qed.

(** ** Sorting *)

Section SortFacts.
Context {A : Type} (compareFn : A -> A -> Z).
Implicit Types (x y : A) (l : list A).

Lemma sort_insert_Permutation x l : sort_insert compareFn x l ≡ₚ x :: l.
Proof.
  induction l as [|y l IH]; cbn; [done|].
  case_decide; [done|]. rewrite IH. apply perm_swap.
Qed.

Lemma js_sort_cons x l :
  js_sort compareFn (x :: l) = sort_insert compareFn x (js_sort compareFn l).
Proof. done. Qed.

Lemma js_sort_Permutation l : js_sort compareFn l ≡ₚ l.
Proof.
  induction l as [|x l IH]; [done|].
  by rewrite js_sort_cons, sort_insert_Permutation, IH.
Qed.

Lemma js_sort_elem l x : x ∈ js_sort compareFn l <-> x ∈ l.
Proof. by rewrite js_sort_Permutation. Qed.

Lemma js_sort_length l : length (js_sort compareFn l) = length l.
Proof. by rewrite js_sort_Permutation. Qed.

(** A sorted array is left as it is: nothing moves in front of an element
    it does not compare smaller than. *)
Lemma js_sort_sorted_id l :
  Sorted (le_by compareFn) l -> js_sort compareFn l = l.
Proof.
  induction 1 as [|x l Hl IH Hhd]; [done|].
  rewrite js_sort_cons, IH. destruct Hhd as [|y l' Hxy]; [done|].
  cbn. by rewrite decide_True.
Qed.

Section Consistent.
Hypothesis Hcmp : ConsistentComparator compareFn.

Lemma le_by_total x y : le_by compareFn x y ∨ le_by compareFn y x.
Proof.
  unfold le_by. destruct (decide (compareFn x y ≤ 0)%Z) as [|Hgt]; [by left|].
  right. apply Z.lt_le_incl, (cmp_antisym _ Hcmp). lia.
Qed.


Lemma sort_insert_HdRel x y l :
  le_by compareFn y x -> HdRel (le_by compareFn) y l ->
  HdRel (le_by compareFn) y (sort_insert compareFn x l).
Proof.
  intros Hyx [|z l' Hyz]; cbn; [by constructor|].
  case_decide; by constructor.
Qed.

Lemma sort_insert_Sorted x l :
  Sorted (le_by compareFn) l -> Sorted (le_by compareFn) (sort_insert compareFn x l).
Proof.
  induction 1 as [|y l Hl IH Hhd]; cbn.
  - by repeat constructor.
  - case_decide as Hxy.
    + constructor; [by constructor | by constructor].
    + constructor; [done|]. apply sort_insert_HdRel; [|done].
      by destruct (le_by_total x y).
Qed.

Lemma js_sort_Sorted l : Sorted (le_by compareFn) (js_sort compareFn l).
Proof.
  induction l as [|x l IH]; [constructor|].
  rewrite js_sort_cons. by apply sort_insert_Sorted.
Qed.


Lemma js_sort_idempotent l :
  js_sort compareFn (js_sort compareFn l) = js_sort compareFn l.
Proof. apply js_sort_sorted_id, js_sort_Sorted. Qed.

End Consistent.
End SortFacts.

(** The comparison by code units is a consistent comparator. *)
Lemma codeUnitCompare_le a b :
  (codeUnitCompare a b ≤ 0)%Z <-> String.le a b.
Proof.
  unfold codeUnitCompare, String.le, String.leb.
  destruct (String.compare a b); cbn; split; (done || lia).
Qed.

Lemma codeUnitCompare_consistent : ConsistentComparator codeUnitCompare.
Proof.
  split.
  - intros a b. unfold codeUnitCompare.
    rewrite (String.compare_antisym b a).
    destruct (String.compare a b); cbn; lia.
  - intros a b c. rewrite !codeUnitCompare_le. apply transitivity.
Qed.

Lemma byTitle_consistent localeCompare :
  ConsistentComparator localeCompare ->
  ConsistentComparator (byTitle localeCompare).
Proof.
  intros [Hanti Htrans]. split; unfold byTitle.
  - intros a b. apply Hanti.
  - intros a b c. apply Htrans.
Qed.

(** ** [Set] *)

Lemma new_Set_snoc l x : new_Set (l ++ [x]) = set_add (new_Set l) x.
Proof. unfold new_Set. by rewrite foldl_app. Qed.

Lemma new_Set_elem l x : x ∈ new_Set l <-> x ∈ l.
Proof.
  induction l as [|y l IH] using rev_ind; [done|].
  rewrite new_Set_snoc, elem_of_app, list_elem_of_singleton, <-IH.
  unfold set_add. case_decide as Hy.
  - split; [by left | intros [?| ->]; done].
  - by rewrite elem_of_app, list_elem_of_singleton.
Qed.

Lemma new_Set_NoDup l : NoDup (new_Set l).
Proof.
  induction l as [|y l IH] using rev_ind; [constructor|].
  rewrite new_Set_snoc. unfold set_add. case_decide as Hy; [done|].
  apply NoDup_app. split_and!; [done| |apply NoDup_singleton].
  by intros x Hx ->%list_elem_of_singleton.
Qed.

(** ** Vector normalisation *)

Section Normalisation.
Context (localeCompare : string -> string -> Z).
Implicit Types (v : list TitleElo) (ts : list string) (e : TitleElo).
Implicit Types (vs : list (list TitleElo)).

Local Abbreviation sortByTitle := (js_sort (byTitle localeCompare)).
Local Abbreviation leTitle := (le_by (byTitle localeCompare)).

Lemma padMissing_elem ts v e :
  e ∈ padMissing ts v
  <-> e ∈ v ∨ (te_elo e = BASE_ELO ∧ te_title e ∈ ts ∧ te_title e ∉ titlesOf v).
Proof.
  unfold padMissing. rewrite elem_of_app, list_elem_of_fmap.
  apply or_iff_compat_l. split.
  - intros (t & -> & Ht). apply list_elem_of_filter in Ht as [Hnin Hin].
    cbn. rewrite new_Set_elem in Hnin. done.
  - intros (Helo & Hin & Hnin). exists (te_title e). split.
    + destruct e; cbn in *. by rewrite Helo.
    + apply list_elem_of_filter. by rewrite new_Set_elem.
Qed.

Lemma padMissing_keeps ts v e : e ∈ v -> e ∈ padMissing ts v.
Proof. intros He. apply padMissing_elem. by left. Qed.

Lemma padMissing_complete ts v : completeOver ts (padMissing ts v).
Proof.
  intros t Ht. unfold titlesOf.
  destruct (decide (t ∈ titlesOf v)) as [Hin|Hnin].
  - apply list_elem_of_fmap in Hin as (e & -> & He).
    apply list_elem_of_fmap_2. by apply padMissing_keeps.
  - apply list_elem_of_fmap. exists {| te_title := t; te_elo := BASE_ELO |}.
    split; [done|]. apply padMissing_elem. by right.
Qed.

(** Nothing is pushed into a vector that has every title already. *)
Lemma padMissing_id ts v : completeOver ts v -> padMissing ts v = v.
Proof.
  intros Hc. unfold padMissing.
  assert (filter (fun t => t ∉ new_Set (te_title <$> v)) ts = []) as ->.
  { apply elem_of_nil_inv. intros t [Hnin Hin]%list_elem_of_filter.
    apply Hnin, new_Set_elem, Hc, Hin. }
  by rewrite fmap_nil, app_nil_r.
Qed.

Lemma completeOver_elem ts ts' v v' :
  (forall t, t ∈ ts' -> t ∈ ts) -> (forall e, e ∈ v -> e ∈ v') ->
  completeOver ts v -> completeOver ts' v'.
Proof.
  intros Hts Hv Hc t Ht. specialize (Hc t (Hts t Ht)).
  unfold titlesOf in *. apply list_elem_of_fmap in Hc as (e & -> & He).
  by apply list_elem_of_fmap_2, Hv.
Qed.

Lemma normalizeVectors_cons first rest :
  normalizeVectors localeCompare (first :: rest)
  = (fun v => sortByTitle (padMissing (new_Set (titlesOf first)) v))
    <$> (first :: rest).
Proof. done. Qed.


(** Each vector keeps its place and its entries, and gains the titles of
    the first vector that it lacks, at the base rating. *)
Lemma normalizeVectors_lookup first rest i v :
  (first :: rest) !! i = Some v ->
  exists v',
    normalizeVectors localeCompare (first :: rest) !! i = Some v'
    ∧ v' = sortByTitle (padMissing (new_Set (titlesOf first)) v)
    ∧ forall e, e ∈ v'
        <-> e ∈ v ∨ (te_elo e = BASE_ELO ∧ te_title e ∈ titlesOf first
                    ∧ te_title e ∉ titlesOf v).
Proof.
  intros Hv. eexists. rewrite normalizeVectors_cons, list_lookup_fmap, Hv.
  split_and!; [done..|]. intros e.
  by rewrite js_sort_elem, padMissing_elem, new_Set_elem.
Qed.

Lemma normalizeVectors_complete first rest :
  Forall (completeOver (titlesOf first))
         (normalizeVectors localeCompare (first :: rest)).
Proof.
  rewrite normalizeVectors_cons. apply Forall_fmap, Forall_forall.
  intros v _. cbn.
  eapply completeOver_elem; [| |apply (padMissing_complete (new_Set (titlesOf first)) v)].
  - intros t. by rewrite new_Set_elem.
  - intros e. by rewrite js_sort_elem.
Qed.

(** Vectors that are complete and sorted come back as they are. *)
Lemma normalizeVectors_fixed first rest :
  Forall (completeOver (titlesOf first)) (first :: rest) ->
  Forall (Sorted leTitle) (first :: rest) ->
  normalizeVectors localeCompare (first :: rest) = first :: rest.
Proof.
  rewrite normalizeVectors_cons, !Forall_forall. intros Hc Hs.
  apply fmap_id_elem. intros v Hv.
  rewrite padMissing_id.
  - by apply js_sort_sorted_id, Hs.
  - eapply completeOver_elem; [| |apply (Hc v Hv)]; [|done].
    intros t. by rewrite new_Set_elem.
Qed.

(** The vectors the scorer produces from one movie list all carry the
    titles of the scorer's map. *)
Lemma calculateMemberElo_titles movies swipes :
  titlesOf (calculateMemberElo movies swipes)
  = mr_title <$> JsMap.values (initRatings movies).
Proof.
  rewrite calculateMemberElo_entries, movieRatings_closed.
  unfold titlesOf, mapEntries, JsMap.values.
  rewrite <-!list_fmap_compose. apply fmap_ext_elem. intros [k r] _. cbn.
  by rewrite replay_sumDeltas.
Qed.

Lemma scoreMembers_titles movies groups v t :
  v ∈ scoreMembers localeCompare movies groups ->
  t ∈ titlesOf v <-> t ∈ mr_title <$> JsMap.values (initRatings movies).
Proof.
  unfold scoreMembers. intros (sw & -> & _)%list_elem_of_fmap.
  rewrite <-(calculateMemberElo_titles movies sw). unfold titlesOf.
  by rewrite js_sort_Permutation.
Qed.


End Normalisation.



(** C4. Normalisation keeps every (title, rating) pair of every vector, at
    the vector's place in the list; a sorted vector on its own is returned
    as it is, a list of sorted vectors that are complete over the titles of
    the first one is returned as it is, and normalising twice is the same
    as normalising once. *)
Theorem normalization_keeps_ratings_and_is_idempotent
    (localeCompare : string -> string -> Z) (vs : list (list TitleElo)) :
  ConsistentComparator localeCompare ->
  (forall i v, vs !! i = Some v ->
     exists v', normalizeVectors localeCompare vs !! i = Some v'
                ∧ forall e, e ∈ v -> e ∈ v')
  ∧ (forall v, Sorted (le_by (byTitle localeCompare)) v ->
       normalizeVectors localeCompare [v] = [v])
  ∧ (Forall (Sorted (le_by (byTitle localeCompare))) vs ->
     (forall first, head vs = Some first ->
        Forall (completeOver (titlesOf first)) vs) ->
     normalizeVectors localeCompare vs = vs)
  ∧ normalizeVectors localeCompare (normalizeVectors localeCompare vs)
    = normalizeVectors localeCompare vs.
Proof.
  intros Hlc. pose proof (byTitle_consistent _ Hlc) as Hcmp. split_and!.
  - intros i v Hv. destruct vs as [|first rest]; [done|].
    destruct (normalizeVectors_lookup localeCompare first rest i v Hv)
      as (v' & Hv' & _ & Helem).
    exists v'. split; [done|]. intros e He. apply Helem. by left.
  - intros v Hs. apply normalizeVectors_fixed.
    + apply Forall_singleton. by intros t Ht.
    + by apply Forall_singleton.
  - intros Hs Hc. destruct vs as [|first rest]; [done|].
    apply normalizeVectors_fixed; [by apply Hc | done].
  - destruct vs as [|first rest]; [done|].
    pose proof (normalizeVectors_complete localeCompare first rest) as Hc.
    rewrite normalizeVectors_cons in Hc |- *. rewrite !fmap_cons in Hc |- *.
    apply normalizeVectors_fixed.
    + eapply Forall_impl; [exact Hc|]. intros v Hv.
      eapply completeOver_elem; [| |exact Hv]; [|done].
      intros t. unfold titlesOf. rewrite js_sort_Permutation.
      intros (e & -> & He)%list_elem_of_fmap.
      apply padMissing_elem in He as [He|(_ & Hin & _)].
      * by apply list_elem_of_fmap_2.
      * rewrite new_Set_elem in Hin. exact Hin.
    + constructor; [by apply js_sort_Sorted|].
      apply Forall_fmap, Forall_forall. intros v _. by apply js_sort_Sorted.
Qed.

Lemma normalization_keeps_ratings_and_is_idempotent_witness :
  ConsistentComparator codeUnitCompare
  ∧ normalizeVectors codeUnitCompare
      (normalizeVectors codeUnitCompare
         [[rated "B" 1216; rated "A" 1184]; [rated "B" 1168]])
    = normalizeVectors codeUnitCompare
        [[rated "B" 1216; rated "A" 1184]; [rated "B" 1168]].
Proof.
  split; [exact codeUnitCompare_consistent|].
  exact (proj2 (proj2 (proj2 (normalization_keeps_ratings_and_is_idempotent
                                codeUnitCompare
                                [[rated "B" 1216; rated "A" 1184]; [rated "B" 1168]]
                                codeUnitCompare_consistent)))).
Defined.

(** ** Persistence of the final ratings *)

Section Persistence.
Implicit Types (x y : option Qc) (movie row : PartyMovie).
Implicit Types (aggregatedElos : list TitleElo) (tbl movies : list PartyMovie).

Lemma truthy_false x : truthy x = false <-> x = None ∨ x = Some 0.
Proof.
  destruct x as [v|]; cbn.
  - rewrite bool_decide_eq_false. split.
    + intros Hv%dec_stable. right. by rewrite Hv.
    + intros [?|[= ->]]; [done|]. by intros ?.
  - split; [by left | done].
Qed.

Lemma truthy_true x : truthy x = true <-> exists v, x = Some v ∧ v ≠ 0.
Proof.
  destruct x as [v|]; cbn.
  - rewrite bool_decide_eq_true. split.
    + intros Hv. by exists v.
    + by intros (? & [= <-] & ?).
  - split; [done | by intros (? & ? & ?)].
Qed.

Lemma js_or_truthy x y : truthy y = true -> truthy (js_or x y) = true.
Proof. unfold js_or. by destruct (truthy x) eqn:Hx. Qed.

Lemma finalElo_truthy aggregatedElos movie :
  truthy (finalElo aggregatedElos movie) = true.
Proof.
  unfold finalElo. apply js_or_truthy. cbn. by apply bool_decide_eq_true.
Qed.

Lemma updateElo_elem p k x tbl row' :
  row' ∈ updateElo p k x tbl ->
  exists row, row ∈ tbl ∧ party_id row' = party_id row
              ∧ movie_id row' = movie_id row
              ∧ ((party_id row = p ∧ movie_id row = k) ∧ elo_rating row' = x
                 ∨ ¬ (party_id row = p ∧ movie_id row = k) ∧ row' = row).
Proof.
  unfold updateElo. intros (row & -> & Hrow)%list_elem_of_fmap.
  exists row. case_decide; cbn; split_and!; auto.
Qed.

(** After the last loop a row of the party whose movie id was among the
    fetched movies holds the [finalElo] of a fetched movie with that id. *)
Lemma storeFinalElos_elem p aggregatedElos movies tbl row' :
  row' ∈ storeFinalElos p aggregatedElos movies tbl ->
  party_id row' = p -> movie_id row' ∈ movie_id <$> movies ->
  exists movie, movie ∈ movies ∧ movie_id movie = movie_id row'
                ∧ elo_rating row' = finalElo aggregatedElos movie.
Proof.
  revert row'. induction movies as [|m movies IH] using rev_ind; intros row'.
  - by intros _ _ ?%elem_of_nil.
  - unfold storeFinalElos. rewrite foldl_app. cbn [foldl].
    fold (storeFinalElos p aggregatedElos movies tbl).
    intros (row & Hrow & Hp & Hk & Hcase)%updateElo_elem Hparty Hid.
    destruct Hcase as [[[_ Hmk] Helo]|[Hno ->]].
    + exists m. split_and!; [apply elem_of_app; right; left | congruence | done].
    + rewrite fmap_app, elem_of_app in Hid. destruct Hid as [Hid|Hid].
      * destruct (IH row Hrow Hparty Hid) as (movie & ? & ? & ?).
        exists movie. split_and!; [apply elem_of_app; by left | done..].
      * apply list_elem_of_singleton in Hid. by destruct Hno.
Qed.

Lemma finalElo_present_nonzero aggregatedElos movie :
  finalElo aggregatedElos movie ≠ None ∧ finalElo aggregatedElos movie ≠ Some 0.
Proof.
  pose proof (finalElo_truthy aggregatedElos movie) as Ht.
  apply truthy_true in Ht as (v & -> & Hv). split; [done|]. by intros [= ->].
Qed.

Lemma stored_rating_present_nonzero
    p aggregatedElos movies tbl row :
  row ∈ storeFinalElos p aggregatedElos movies tbl ->
  party_id row = p -> movie_id row ∈ movie_id <$> movies ->
  elo_rating row ≠ None ∧ elo_rating row ≠ Some 0.
Proof.
  intros Hrow Hp Hid.
  destruct (storeFinalElos_elem _ _ _ _ _ Hrow Hp Hid) as (m & _ & _ & ->).
  apply finalElo_present_nonzero.
Qed.

(** C10. The rating written for a movie is the aggregated rating of its
    title when that is present and not zero; otherwise the movie's fetched
    [elo_rating] when that is present and not zero; otherwise 1200.  What
    is written is never absent and never 0, and so is every rating the
    store holds afterwards for a fetched movie of the party. *)
Theorem persisted_rating_falls_back_and_is_never_zero
    (aggregatedElos : list TitleElo) (movie : PartyMovie) :
  (forall a : Qc, JsMap.get (title movie) (eloMap aggregatedElos) = Some a ->
                  a ≠ 0 -> finalElo aggregatedElos movie = Some a)
  ∧ (JsMap.get (title movie) (eloMap aggregatedElos) = None
     ∨ JsMap.get (title movie) (eloMap aggregatedElos) = Some 0 ->
     forall b : Qc, elo_rating movie = Some b -> b ≠ 0 ->
                    finalElo aggregatedElos movie = Some b)
  ∧ (JsMap.get (title movie) (eloMap aggregatedElos) = None
     ∨ JsMap.get (title movie) (eloMap aggregatedElos) = Some 0 ->
     elo_rating movie = None ∨ elo_rating movie = Some 0 ->
     finalElo aggregatedElos movie = Some (Qc_of_Z 1200))
  ∧ finalElo aggregatedElos movie ≠ None
  ∧ finalElo aggregatedElos movie ≠ Some 0
  ∧ (forall p movies tbl row,
       row ∈ storeFinalElos p aggregatedElos movies tbl ->
       party_id row = p -> movie_id row ∈ movie_id <$> movies ->
       elo_rating row ≠ None ∧ elo_rating row ≠ Some 0).
Proof.
  pose proof (finalElo_present_nonzero aggregatedElos) as Hnz.
  split_and!.
  - intros a Ha Hne. unfold finalElo, js_or. rewrite Ha.
    assert (truthy (Some a) = true) as Ht by (apply truthy_true; eauto).
    by rewrite !Ht.
  - intros Hagg%truthy_false b Hb Hne. unfold finalElo, js_or.
    rewrite Hagg, Hb.
    assert (truthy (Some b) = true) as Ht by (apply truthy_true; eauto).
    by rewrite !Ht.
  - intros Hagg%truthy_false Hold%truthy_false. unfold finalElo, js_or.
    by rewrite Hagg, Hold.
  - apply Hnz.
  - apply Hnz.
  - intros p movies tbl row.
    apply stored_rating_present_nonzero.
Qed.

End Persistence.

(** ** The ranking query *)

Section Rankings.
Implicit Types (x y z : option Qc) (a b : PartyMovie) (rows : list PartyMovie).

Lemma elo_ge_total x y : elo_ge x y = true ∨ elo_ge y x = true.
Proof.
  destruct x as [p|], y as [q|]; cbn; auto.
  rewrite !bool_decide_eq_true. destruct (total Qcle p q); auto.
Qed.

Lemma elo_ge_trans x y z :
  elo_ge x y = true -> elo_ge y z = true -> elo_ge x z = true.
Proof.
  destruct x as [p|], y as [q|], z as [r|]; cbn; try done.
  rewrite !bool_decide_eq_true. intros ??. by trans q.
Qed.

Lemma byEloDesc_le a b :
  le_by byEloDesc a b <-> elo_ge (elo_rating a) (elo_rating b) = true.
Proof.
  unfold le_by, byEloDesc.
  destruct (elo_ge (elo_rating a) (elo_rating b));
    destruct (elo_ge (elo_rating b) (elo_rating a)); split; (done || lia).
Qed.

Lemma byEloDesc_consistent : ConsistentComparator byEloDesc.
Proof.
  split.
  - intros a b. unfold byEloDesc.
    destruct (elo_ge_total (elo_rating a) (elo_rating b)) as [H|H]; rewrite H.
    + destruct (elo_ge (elo_rating b) (elo_rating a)); lia.
    + destruct (elo_ge (elo_rating a) (elo_rating b)); lia.
  - intros a b c Hab%byEloDesc_le Hbc%byEloDesc_le.
    apply (proj2 (byEloDesc_le a c)). by eapply elo_ge_trans.
Qed.

Lemma Sorted_iff {A} (R S : relation A) (l : list A) :
  (forall u v, R u v <-> S u v) -> Sorted R l -> Sorted S l.
Proof.
  intros HRS. induction 1 as [|u l _ IH Hhd]; constructor; [done|].
  destruct Hhd; constructor. by apply HRS.
Qed.

(** Stability of the sort on a class of elements that do not compare
    greater than one another: they keep their order. *)
Lemma sort_insert_filter {A} (compareFn : A -> A -> Z)
    (P : A -> Prop) `{!forall u, Decision (P u)} (u : A) (l : list A) :
  (forall v w, P v -> P w -> (compareFn v w ≤ 0)%Z) ->
  filter P (sort_insert compareFn u l) = filter P (u :: l).
Proof.
  intros HP. induction l as [|v l IH]; [done|]. cbn [sort_insert].
  case_decide as Huv; [done|].
  rewrite (filter_cons P v), IH, (filter_cons P u (v :: l)).
  rewrite (filter_cons P v l), (filter_cons P u l).
  destruct (decide (P u)) as [Hu|]; [|done].
  destruct (decide (P v)) as [Hv|]; [|done].
  destruct Huv. by apply HP.
Qed.

Lemma js_sort_filter {A} (compareFn : A -> A -> Z)
    (P : A -> Prop) `{!forall u, Decision (P u)} (l : list A) :
  (forall v w, P v -> P w -> (compareFn v w ≤ 0)%Z) ->
  filter P (js_sort compareFn l) = filter P l.
Proof.
  intros HP. induction l as [|u l IH]; [done|].
  rewrite js_sort_cons, sort_insert_filter by done.
  by rewrite !(filter_cons P u), IH.
Qed.

(** C8, as the code has it. The ranking is the party's rows ordered by
    [elo_rating] alone, larger first; rows of one rating keep the order in
    which the store holds them, whatever their titles. *)
Theorem rankings_ordered_by_rating_only (db : Db) (partyId : string) :
  OrderedByEloDesc
    (filter (fun r => party_id r = partyId) (party_movies db))
    (getPartyRankings db partyId)
  ∧ StronglySorted (fun a b => elo_ge (elo_rating a) (elo_rating b) = true)
      (getPartyRankings db partyId)
  ∧ (forall x : option Qc,
       filter (fun r => elo_rating r = x) (getPartyRankings db partyId)
       = filter (fun r => elo_rating r = x)
           (filter (fun r => party_id r = partyId) (party_movies db))).
Proof.
  assert (Sorted (fun a b => elo_ge (elo_rating a) (elo_rating b) = true)
            (getPartyRankings db partyId)) as Hsorted.
  { eapply Sorted_iff; [apply byEloDesc_le|].
    apply js_sort_Sorted, byEloDesc_consistent. }
  split_and!.
  - split; [apply js_sort_Permutation | exact Hsorted].
  - apply Sorted_StronglySorted; [|exact Hsorted].
    intros a b c. apply elo_ge_trans.
  - intros x. apply js_sort_filter. intros a b Ha Hb.
    apply (proj2 (byEloDesc_le a b)). rewrite Ha, Hb.
    by destruct (elo_ge_total x x).
Qed.

(** C8 as stated fails: B and A hold the same rating, B was stored first
    and comes first in the ranking although A precedes B by title; and the
    contract of the query admits both orders of the two. *)
Lemma ranking_tie_not_in_title_order :
  title <$> getPartyRankings tiedDb "party" = ["C"; "B"; "A"]
  ∧ (exists b a,
       getPartyRankings tiedDb "party" !! 1%nat = Some b
       ∧ getPartyRankings tiedDb "party" !! 2%nat = Some a
       ∧ title b = "B" ∧ title a = "A"
       ∧ tieAgainstTitles b a)
  ∧ (exists r1 r2,
       OrderedByEloDesc tiedRows r1 ∧ OrderedByEloDesc tiedRows r2
       ∧ title <$> r1 = ["C"; "B"; "A"] ∧ title <$> r2 = ["C"; "A"; "B"]).
Proof.
  split_and!.
  - by vm_compute.
  - eexists _, _. split_and!; [by vm_compute..|]. split; by vm_compute.
  - exists [movieRow "m3" "C" (1 # 2) (Some (Qc_of_Z 1300));
            movieRow "m2" "B" (1 # 2) (Some (Qc_of_Z 1200));
            movieRow "m1" "A" (1 # 2) (Some (Qc_of_Z 1200))],
           [movieRow "m3" "C" (1 # 2) (Some (Qc_of_Z 1300));
            movieRow "m1" "A" (1 # 2) (Some (Qc_of_Z 1200));
            movieRow "m2" "B" (1 # 2) (Some (Qc_of_Z 1200))].
    split_and!; [split|split|done|done].
    + unfold tiedRows. apply perm_swap.
    + repeat constructor; by vm_compute.
    + unfold tiedRows. etrans; [apply perm_skip, perm_swap|]. apply perm_swap.
    + repeat constructor; by vm_compute.
Qed.

End Rankings.

(** ** The Rank Aggregator *)

Lemma sumQc_Permutation (l l' : list Qc) : l ≡ₚ l' -> sumQc l = sumQc l'.
Proof.
  unfold sumQc.
  induction 1 as [|x l l' _ IH|x y l|l1 l2 l3 _ IH1 _ IH2]; cbn.
  - done.
  - by rewrite IH.
  - ring.
  - by rewrite IH1.
Qed.

Lemma mean_Permutation (l l' : list Qc) : l ≡ₚ l' -> mean l = mean l'.
Proof.
  intros Hperm. unfold mean.
  by rewrite (sumQc_Permutation _ _ Hperm), (Permutation_length Hperm).
Qed.

Lemma ratingsOf_Permutation (t : string) (vs vs' : list (list TitleElo)) :
  vs ≡ₚ vs' -> ratingsOf t vs ≡ₚ ratingsOf t vs'.
Proof. intros Hperm. unfold ratingsOf. by rewrite Hperm. Qed.

Section Aggregator.
Context (combine : list Qc -> Qc).
Hypothesis combine_symmetric : forall l l', l ≡ₚ l' -> combine l = combine l'.

(** Any combining function that reads the ratings of an item as a
    multiset gives an anonymous aggregator. *)
Lemma aggregateWith_anonymous (vs vs' : list (list TitleElo)) :
  vs ≡ₚ vs' ->
  (forall v w, v ∈ vs -> w ∈ vs -> titlesOf v = titlesOf w) ->
  aggregateWith combine vs = aggregateWith combine vs'.
Proof.
  intros Hperm Hsame.
  destruct vs as [|first rest], vs' as [|first' rest'].
  - done.
  - by apply Permutation_nil_l in Hperm.
  - by apply Permutation_nil_r in Hperm.
  - unfold aggregateWith.
    assert (titlesOf first = titlesOf first') as <-.
    { apply Hsame; [left|]. rewrite Hperm. left. }
    apply fmap_ext_elem. intros t _. f_equal.
    by apply combine_symmetric, ratingsOf_Permutation.
Qed.

End Aggregator.

(** The scenario of the specification, end to end. *)
Example scenario_consensus :
  scenarioVectors
  = [ [ {| te_title := "A"; te_elo := Qc_of_Z 1216 |};
        {| te_title := "B"; te_elo := Q2Qc (11744 # 10) |} ];
      [ {| te_title := "A"; te_elo := Qc_of_Z 1184 |};
        {| te_title := "B"; te_elo := Qc_of_Z 1200 |} ] ]
  ∧ checkAll scenarioVectors
    = [ {| te_title := "A"; te_elo := Qc_of_Z 1200 |};
        {| te_title := "B"; te_elo := Q2Qc (11872 # 10) |} ].
Proof.
  split; apply (bool_decide_unpack _); by vm_compute.
Qed.

(** C9. The aggregator is anonymous: for member vectors that carry the
    same titles in the same order, a permutation of the list of vectors
    gives the same consensus vector. *)
Theorem checkAll_anonymous (vectors vectors' : list (list TitleElo)) :
  vectors ≡ₚ vectors' ->
  (forall v w, v ∈ vectors -> w ∈ vectors -> titlesOf v = titlesOf w) ->
  checkAll vectors = checkAll vectors'.
Proof.
  intros Hperm Hsame. unfold checkAll.
  apply aggregateWith_anonymous; [|exact Hperm|exact Hsame].
  intros l l' Hl. by apply mean_Permutation.
Qed.

Lemma checkAll_anonymous_witness :
  [ [rated "A" 1216; rated "B" 1174];
    [rated "A" 1184; rated "B" 1200];
    [rated "A" 1200; rated "B" 1232] ]
  ≡ₚ [ [rated "A" 1200; rated "B" 1232];
       [rated "A" 1216; rated "B" 1174];
       [rated "A" 1184; rated "B" 1200] ]
  ∧ checkAll [ [rated "A" 1216; rated "B" 1174];
               [rated "A" 1184; rated "B" 1200];
               [rated "A" 1200; rated "B" 1232] ]
    = checkAll [ [rated "A" 1200; rated "B" 1232];
                 [rated "A" 1216; rated "B" 1174];
                 [rated "A" 1184; rated "B" 1200] ].
Proof.
  assert ([ [rated "A" 1216; rated "B" 1174];
            [rated "A" 1184; rated "B" 1200];
            [rated "A" 1200; rated "B" 1232] ]
          ≡ₚ [ [rated "A" 1200; rated "B" 1232];
               [rated "A" 1216; rated "B" 1174];
               [rated "A" 1184; rated "B" 1200] ]) as Hperm.
  { etrans; [apply perm_skip, perm_swap|]. apply perm_swap. }
  split; [exact Hperm|].
  refine (checkAll_anonymous _ _ Hperm _).
  intros v w Hv Hw.
  repeat (apply elem_of_cons in Hv as [->|Hv]);
    repeat (apply elem_of_cons in Hw as [->|Hw]);
    first [reflexivity | by apply elem_of_nil in Hv | by apply elem_of_nil in Hw].
Defined.

(** ** Grouping of the swipes and the whole operation *)

Section Operation.
Implicit Types (members : list string) (rows : list SwipeRow) (u : string).

Lemma initMembers_snoc members u :
  initMembers (members ++ [u]) = JsMap.set u [] (initMembers members).
Proof. unfold initMembers. by rewrite foldl_app. Qed.

Lemma initMembers_NoDup members : NoDup (JsMap.keys (initMembers members)).
Proof.
  induction members as [|u members IH] using rev_ind; [constructor|].
  rewrite initMembers_snoc. by apply keys_set_NoDup.
Qed.

Lemma initMembers_get members u :
  JsMap.get u (initMembers members)
  = if decide (u ∈ members) then Some [] else None.
Proof.
  induction members as [|u' members IH] using rev_ind.
  - rewrite decide_False; [done | apply not_elem_of_nil].
  - rewrite initMembers_snoc. destruct (decide (u = u')) as [->|Hne].
    + rewrite get_set_eq, decide_True; [done|].
      apply elem_of_app. right. left.
    + rewrite get_set_ne, IH by done.
      destruct (decide (u ∈ members)) as [Hin|Hnin].
      * rewrite decide_True; [done|]. apply elem_of_app. by left.
      * rewrite decide_False; [done|].
        rewrite elem_of_app, list_elem_of_singleton. tauto.
Qed.

Lemma pushSwipe_keys (m : JsMap.t (list Swipe)) (row : SwipeRow) :
  JsMap.keys (pushSwipe m row) = JsMap.keys m.
Proof.
  unfold pushSwipe.
  destruct (JsMap.get (row_user_id row) m) as [l|] eqn:Hget; [|done].
  rewrite keys_set, decide_True; [done|]. apply get_Some_keys. by exists l.
Qed.

(** Every member gets the swipes of the log that carry the member's id,
    in the order of the log; swipes of other users are dropped. *)
Lemma swipesByMember_foldl (m : JsMap.t (list Swipe)) rows :
  NoDup (JsMap.keys m) ->
  foldl pushSwipe m rows
  = mapEntries
      (fun u l => l ++ (toSwipe <$> filter (fun r => row_user_id r = u) rows)) m.
Proof.
  revert m. induction rows as [|row rows IH]; intros m Hnd.
  - symmetry. apply mapEntries_id. intros u l _. cbn. by rewrite app_nil_r.
  - cbn [foldl]. rewrite IH by (by rewrite pushSwipe_keys).
    unfold pushSwipe. rewrite get_set_mapEntries by done.
    rewrite mapEntries_compose. apply mapEntries_ext. intros u l _.
    rewrite filter_cons.
    destruct (decide (row_user_id row = u)) as [Hu|Hu].
    + by rewrite fmap_cons, <-app_assoc.
    + done.
Qed.

Lemma swipesByMember_get members rows u :
  JsMap.get u (swipesByMember members rows)
  = if decide (u ∈ members)
    then Some (toSwipe <$> filter (fun r => row_user_id r = u) rows)
    else None.
Proof.
  unfold swipesByMember.
  rewrite swipesByMember_foldl by apply initMembers_NoDup.
  rewrite get_mapEntries, initMembers_get. by case_decide.
Qed.

Lemma updateElo_origin p k (x : option Qc) tbl row' :
  row' ∈ updateElo p k x tbl ->
  exists row, row ∈ tbl ∧ party_id row' = party_id row
              ∧ movie_id row' = movie_id row.
Proof.
  intros (row & ? & ? & ? & _)%updateElo_elem. by exists row.
Qed.

Lemma storeFinalElos_origin p aggregatedElos movies tbl row' :
  row' ∈ storeFinalElos p aggregatedElos movies tbl ->
  exists row, row ∈ tbl ∧ party_id row' = party_id row
              ∧ movie_id row' = movie_id row.
Proof.
  revert row'. induction movies as [|m movies IH] using rev_ind; intros row'.
  - intros Hrow. by exists row'.
  - unfold storeFinalElos. rewrite foldl_app. cbn [foldl].
    fold (storeFinalElos p aggregatedElos movies tbl).
    intros (row & Hrow & Hp & Hk)%updateElo_origin.
    destruct (IH row Hrow) as (row0 & ? & ? & ?).
    exists row0. split_and!; [done | congruence..].
Qed.

(** The operation throws for a party without movies, leaves the store as
    it is for a party without active members, and otherwise returns a
    store in which every movie of the party holds a rating that is present
    and not zero; members and swipes are never written. *)
Lemma calculateAndStoreFinalRankings_outcome localeCompare db partyId :
  match calculateAndStoreFinalRankings localeCompare db partyId with
  | Thrown => filter (fun r => party_id r = partyId) (party_movies db) = []
  | Returned db' =>
      party_members db' = party_members db
      ∧ user_swipes db' = user_swipes db
      ∧ (filter (fun r => member_party_id r = partyId ∧ status r = "active")
                (party_members db) = [] -> db' = db)
      ∧ (filter (fun r => member_party_id r = partyId ∧ status r = "active")
                (party_members db) ≠ [] ->
         forall row, row ∈ party_movies db' -> party_id row = partyId ->
                     elo_rating row ≠ None ∧ elo_rating row ≠ Some 0)
  end.
Proof.
  unfold calculateAndStoreFinalRankings.
  destruct (decide (filter _ (party_movies db) = [])) as [Hm|Hm]; [done|].
  destruct (decide (filter _ (party_members db) = [])) as [Hmem|Hmem].
  - by split_and!.
  - cbn. split_and!; [done..|]. intros _ row Hrow Hp.
    destruct (storeFinalElos_origin _ _ _ _ _ Hrow) as (row0 & Hrow0 & Hp0 & Hk0).
    eapply stored_rating_present_nonzero; [exact Hrow|done|].
    rewrite Hk0. apply list_elem_of_fmap_2, list_elem_of_filter.
    split; [congruence | done].
Qed.

End Operation.

(** * Further properties of the code *)

(** ** The Member Scorer: what it reads, and bounds on what it yields *)

(** Goals about the order of [Qc] as goals about [Q]. *)
Ltac qc_to_q :=
  unfold Qcle, Qclt, Qcminus, Qcopp, Qcplus, Qcmult, Q2Qc, Qc_of_Z in *;
  cbn [this] in *;
  rewrite ?Qred_correct in *;
  change (inject_Z 32) with (32 # 1)%Q in *;
  change (inject_Z 1200) with (1200 # 1)%Q in *.

Lemma Qc_of_nat_succ (n : nat) :
  Qc_of_Z (Z.of_nat (S n)) = Qc_of_Z (Z.of_nat n) + 1.
Proof.
  apply Qc_is_canon. cbn. rewrite Qred_correct.
  by rewrite Nat2Z.inj_succ, <-Z.add_1_r, inject_Z_plus.
Qed.

Lemma initRatings_of_entries (movies : list PartyMovie) :
  initRatings movies
  = JsMap.of_entries ((fun c => (movie_id c, baseRating c)) <$> movies).
Proof. unfold initRatings, JsMap.of_entries. by rewrite foldl_fmap. Qed.

Lemma countSwipes_cons k d s swipes :
  countSwipes k d (s :: swipes)
  = if decide (swipe_movie_id s = k ∧ direction s = d)
    then S (countSwipes k d swipes) else countSwipes k d swipes.
Proof. unfold countSwipes. rewrite filter_cons. by case_decide. Qed.

Lemma sumDeltas_bounds (k : string) (e : Qc) (swipes : list Swipe) :
  0 ≤ e -> e ≤ 1 ->
  - (Qc_of_Z 32 * Qc_of_Z (Z.of_nat (countSwipes k SwipeLeft swipes)))
    ≤ sumDeltas k e swipes
  ∧ sumDeltas k e swipes
    ≤ Qc_of_Z 32 * Qc_of_Z (Z.of_nat (countSwipes k SwipeRight swipes)).
Proof.
  intros H0 H1. induction swipes as [|s swipes [IHl IHr]].
  - cbn. qc_to_q. unfold inject_Z. change (Z.of_nat 0) with 0%Z. split; lra.
  - cbn [sumDeltas]. rewrite !countSwipes_cons. unfold eloChange, K_FACTOR.
    destruct (direction s); cbn [actualScore];
      repeat case_decide; try (exfalso; intuition congruence);
      rewrite ?Qc_of_nat_succ;
      remember (Qc_of_Z (Z.of_nat (countSwipes k SwipeLeft swipes))) as L;
      remember (Qc_of_Z (Z.of_nat (countSwipes k SwipeRight swipes))) as R;
      remember (sumDeltas k e swipes) as t;
      clear -H0 H1 IHl IHr; qc_to_q; split; lra.
Qed.

(** X1. With an expected score between 0 and 1, a candidate's rating
    after the member's swipes lies between 1200 minus 32 per left swipe on
    that candidate and 1200 plus 32 per right swipe on it. *)
Theorem scorer_rating_within_32_per_swipe
    (movies : list PartyMovie) (swipes : list Swipe) (k : string)
    (r : MovieRating) :
  JsMap.get k (movieRatings movies swipes) = Some r ->
  0 ≤ mr_expected_score r -> mr_expected_score r ≤ 1 ->
  Qc_of_Z 1200
    - Qc_of_Z 32 * Qc_of_Z (Z.of_nat (countSwipes k SwipeLeft swipes))
    ≤ elo r
  ∧ elo r
    ≤ Qc_of_Z 1200
      + Qc_of_Z 32 * Qc_of_Z (Z.of_nat (countSwipes k SwipeRight swipes)).
Proof.
  rewrite movieRatings_get.
  destruct (JsMap.get k (initRatings movies)) as [r0|] eqn:Hget; [|done].
  cbn. intros [= <-]. rewrite replay_sumDeltas. cbn [elo mr_expected_score].
  intros H0 H1. apply initRatings_get_base in Hget. rewrite Hget.
  destruct (sumDeltas_bounds k (mr_expected_score r0) swipes H0 H1) as [Hl Hr].
  remember (Qc_of_Z (Z.of_nat (countSwipes k SwipeLeft swipes))) as L.
  remember (Qc_of_Z (Z.of_nat (countSwipes k SwipeRight swipes))) as R.
  remember (sumDeltas k (mr_expected_score r0) swipes) as t.
  unfold BASE_ELO. clear -Hl Hr. qc_to_q. split; lra.
Qed.

Lemma scorer_rating_within_32_per_swipe_witness :
  Qc_of_Z 1200 - Qc_of_Z 32 * Qc_of_Z 1
    ≤ BASE_ELO
      + eloChange SwipeRight (Q2Qc (85 # 100))
      + eloChange SwipeLeft (Q2Qc (85 # 100))
  ∧ BASE_ELO
      + eloChange SwipeRight (Q2Qc (85 # 100))
      + eloChange SwipeLeft (Q2Qc (85 # 100))
    ≤ Qc_of_Z 1200 + Qc_of_Z 32 * Qc_of_Z 1.
Proof.
  refine (scorer_rating_within_32_per_swipe exampleMovies
            [swipeOn "m1" SwipeRight; swipeOn "m1" SwipeLeft] "m1"
            {| elo := BASE_ELO
                      + eloChange SwipeRight (Q2Qc (85 # 100))
                      + eloChange SwipeLeft (Q2Qc (85 # 100));
               mr_expected_score := Q2Qc (85 # 100);
               mr_title := "Dune: Part Two" |} _ _ _).
  - reflexivity.
  - by vm_compute.
  - by vm_compute.
Defined.

Lemma calculateMemberElo_columns
    (movies movies' : list PartyMovie) (swipes : list Swipe) :
  (fun c => (movie_id c, title c, expected_score c)) <$> movies
  = (fun c => (movie_id c, title c, expected_score c)) <$> movies' ->
  calculateMemberElo movies swipes = calculateMemberElo movies' swipes.
Proof.
  intros Hcols. rewrite !calculateMemberElo_entries, !movieRatings_closed.
  rewrite !initRatings_of_entries.
  assert ((fun c => (movie_id c, baseRating c)) <$> movies
          = (fun c => (movie_id c, baseRating c)) <$> movies') as ->; [|done].
  revert movies' Hcols. induction movies as [|c movies IH];
    intros [|c' movies'] Hcols; simplify_eq/=; [done|].
  f_equal; [|by apply IH]. unfold baseRating. congruence.
Qed.

(** X2. The scorer reads the movie id, the title and the expected score
    of a movie row and nothing else: two movie lists that agree on these
    columns give the same vector for every member, whatever ratings the
    rows hold. *)
Theorem scorer_reads_only_id_title_and_expected_score
    (movies movies' : list PartyMovie) (swipes : list Swipe) :
  (fun c => (movie_id c, title c, expected_score c)) <$> movies
  = (fun c => (movie_id c, title c, expected_score c)) <$> movies' ->
  calculateMemberElo movies swipes = calculateMemberElo movies' swipes
  ∧ (forall localeCompare groups,
       scoreMembers localeCompare movies groups
       = scoreMembers localeCompare movies' groups).
Proof.
  intros Hcols. split.
  - by apply calculateMemberElo_columns.
  - intros localeCompare groups. unfold scoreMembers.
    apply fmap_ext_elem. intros memberSwipes _. f_equal.
    by apply calculateMemberElo_columns.
Qed.

Lemma scorer_reads_only_id_title_and_expected_score_witness :
  calculateMemberElo exampleMovies [swipeOn "m2" SwipeRight]
  = calculateMemberElo (setElo (Some (Qc_of_Z 1500)) <$> exampleMovies)
      [swipeOn "m2" SwipeRight].
Proof.
  apply scorer_reads_only_id_title_and_expected_score. reflexivity.
Defined.

(** ** Grouping of the swipe log *)

Lemma initMembers_keys (members : list string) :
  JsMap.keys (initMembers members) = new_Set members.
Proof.
  induction members as [|u members IH] using rev_ind; [done|].
  by rewrite initMembers_snoc, new_Set_snoc, keys_set, IH.
Qed.

Lemma pushSwipe_keys_foldl (m : JsMap.t (list Swipe)) (rows : list SwipeRow) :
  JsMap.keys (foldl pushSwipe m rows) = JsMap.keys m.
Proof.
  revert m. induction rows as [|row rows IH]; intros m; [done|].
  cbn [foldl]. by rewrite IH, pushSwipe_keys.
Qed.

(** X3. Grouping gives every member one group, in the order in which the
    members first appear; a member's group holds the member's swipes of
    the log in the order of the log (none for a member who has not
    swiped), and a swipe of a user who is not a member is in no group. *)
Theorem grouping_gives_each_member_its_swipes_in_log_order
    (members : list string) (allSwipes : list SwipeRow) :
  JsMap.keys (swipesByMember members allSwipes) = new_Set members
  ∧ forall u,
      JsMap.get u (swipesByMember members allSwipes)
      = if decide (u ∈ members)
        then Some (toSwipe <$> filter (fun r => row_user_id r = u) allSwipes)
        else None.
Proof.
  split.
  - unfold swipesByMember. by rewrite pushSwipe_keys_foldl, initMembers_keys.
  - apply swipesByMember_get.
Qed.

(** ** The operation on the store *)

Section OperationFacts.
Context (aggregate : list (list TitleElo) -> list TitleElo).
Context (localeCompare : string -> string -> Z).
Implicit Types (db : Db) (p : string) (row : PartyMovie).
Implicit Types (movies tbl : list PartyMovie) (agg : list TitleElo).

Lemma filter_fmap_preserved {A} (P : A -> Prop) `{!forall x, Decision (P x)}
    (f : A -> A) (l : list A) :
  (forall x, P (f x) <-> P x) -> filter P (f <$> l) = f <$> filter P l.
Proof.
  intros Hf. induction l as [|x l IH]; [done|].
  rewrite fmap_cons, !filter_cons, IH.
  destruct (decide (P x)) as [Hx|Hx].
  - rewrite decide_True by (by apply Hf). done.
  - rewrite decide_False by (by rewrite Hf). done.
Qed.

Lemma setElo_setElo (x y : option Qc) row : setElo x (setElo y row) = setElo x row.
Proof. done. Qed.

Lemma fixedColumns_setElo (x : option Qc) row :
  fixedColumns (setElo x row) = fixedColumns row.
Proof. done. Qed.

Lemma fixedColumns_storedRow p agg movies row :
  fixedColumns (storedRow p agg movies row) = fixedColumns row.
Proof.
  unfold storedRow. case_decide; [|done].
  by destruct (last (filter _ movies)).
Qed.

Lemma storedRow_party p agg movies row :
  party_id (storedRow p agg movies row) = party_id row.
Proof.
  pose proof (fixedColumns_storedRow p agg movies row) as H.
  by injection H.
Qed.

Lemma storedRow_movie_id p agg movies row :
  movie_id (storedRow p agg movies row) = movie_id row.
Proof.
  pose proof (fixedColumns_storedRow p agg movies row) as H.
  by injection H.
Qed.

(** The update loop, row by row. *)
Lemma storeFinalElos_closed p agg movies tbl :
  storeFinalElos p agg movies tbl = storedRow p agg movies <$> tbl.
Proof.
  induction movies as [|m movies IH] using rev_ind.
  - cbn. symmetry. apply fmap_id_elem. intros row _. unfold storedRow.
    by case_decide.
  - unfold storeFinalElos. rewrite foldl_app. cbn [foldl].
    fold (storeFinalElos p agg movies tbl). rewrite IH.
    unfold updateElo. rewrite <-list_fmap_compose.
    apply fmap_ext_elem. intros row _. cbn.
    rewrite storedRow_party, storedRow_movie_id.
    unfold storedRow. rewrite filter_app, filter_cons, filter_nil.
    destruct (decide (party_id row = p)) as [Hp|Hp].
    + destruct (decide (movie_id m = movie_id row)) as [Hk|Hk].
      * rewrite decide_True by done. rewrite last_snoc.
        by destruct (last (filter _ movies)).
      * rewrite decide_False by (intros [_ ?]; done).
        by rewrite app_nil_r.
    + rewrite decide_False by (intros [? _]; done). done.
Qed.

Lemma finalElo_setElo_fixed agg (m : PartyMovie) :
  finalElo agg (setElo (finalElo agg m) m) = finalElo agg m.
Proof.
  pose proof (finalElo_truthy agg m) as Ht.
  unfold finalElo, js_or in *. cbn [title elo_rating setElo].
  destruct (truthy (JsMap.get (title m) (eloMap agg))) eqn:Ha; [done|].
  by rewrite !Ht.
Qed.

(** Storing again, from the rows as stored, changes nothing. *)
Lemma storedRow_again p agg movies row :
  Forall (fun m => party_id m = p) movies ->
  storedRow p agg (storedRow p agg movies <$> movies)
    (storedRow p agg movies row)
  = storedRow p agg movies row.
Proof.
  intros Hparty. unfold storedRow at 1.
  rewrite storedRow_party, storedRow_movie_id.
  destruct (decide (party_id row = p)) as [Hp|Hp]; [|done].
  rewrite filter_fmap_preserved
    by (intros x; by rewrite storedRow_movie_id).
  rewrite fmap_last.
  destruct (last (filter (fun m => movie_id m = movie_id row) movies))
    as [m1|] eqn:Hlast; [|done].
  cbn. assert (movie_id m1 = movie_id row ∧ party_id m1 = p) as [Hk Hp1].
  { apply last_Some_elem_of in Hlast.
    apply list_elem_of_filter in Hlast as [Hk Hin]. split; [done|].
    rewrite Forall_forall in Hparty. by apply Hparty. }
  assert (storedRow p agg movies m1 = setElo (finalElo agg m1) m1) as ->.
  { unfold storedRow. rewrite decide_True by done. by rewrite Hk, Hlast. }
  rewrite finalElo_setElo_fixed. unfold storedRow.
  rewrite decide_True by done. by rewrite Hlast.
Qed.

Lemma operation_unfold db p :
  calculateAndStoreFinalRankingsWith aggregate localeCompare db p
  = let movies := filter (fun r => party_id r = p) (party_movies db) in
    let members :=
      filter (fun r => member_party_id r = p ∧ status r = "active")
             (party_members db) in
    if decide (movies = []) then Thrown
    else if decide (members = []) then Returned db
    else
      let agg :=
        aggregate
          (normalizeVectors localeCompare
             (scoreMembers localeCompare movies
                (swipesByMember (member_user_id <$> members)
                   (filter (fun r => row_party_id r = p) (user_swipes db))))) in
      Returned {| party_movies := storedRow p agg movies <$> party_movies db;
                  party_members := party_members db;
                  user_swipes := user_swipes db |}.
Proof.
  unfold calculateAndStoreFinalRankingsWith. cbn zeta.
  repeat case_decide; try done. by rewrite storeFinalElos_closed.
Qed.

Lemma operation_is_the_service db p :
  calculateAndStoreFinalRankings localeCompare db p
  = calculateAndStoreFinalRankingsWith checkAll localeCompare db p.
Proof. done. Qed.

End OperationFacts.

(** X5. The operation writes ratings of the party's movies and nothing
    else: members and swipes are as before, every movie row keeps its
    place, party, movie id, title and expected score, and the rows of
    other parties are unchanged. *)
Theorem operation_writes_only_ratings_of_the_party
    (aggregate : list (list TitleElo) -> list TitleElo)
    (localeCompare : string -> string -> Z) (db db' : Db) (partyId : string) :
  calculateAndStoreFinalRankingsWith aggregate localeCompare db partyId
  = Returned db' ->
  party_members db' = party_members db
  ∧ user_swipes db' = user_swipes db
  ∧ fixedColumns <$> party_movies db' = fixedColumns <$> party_movies db
  ∧ (forall i row, party_movies db !! i = Some row ->
       party_id row ≠ partyId -> party_movies db' !! i = Some row).
Proof.
  rewrite operation_unfold. cbn zeta.
  destruct (decide (filter _ (party_movies db) = [])); [done|].
  destruct (decide (filter _ (party_members db) = [])).
  - intros [= <-]. by split_and!.
  - intros [= <-]. cbn. split_and!; [done..| |].
    + rewrite <-list_fmap_compose. apply fmap_ext_elem. intros row _.
      apply fixedColumns_storedRow.
    + intros i row Hrow Hp. rewrite list_lookup_fmap, Hrow. cbn.
      unfold storedRow. by rewrite decide_False.
Qed.

Lemma operation_writes_only_ratings_of_the_party_witness :
  exists db',
    calculateAndStoreFinalRankingsWith checkAll codeUnitCompare sampleDb "party"
    = Returned db'
    ∧ party_members db' = party_members sampleDb
    ∧ user_swipes db' = user_swipes sampleDb
    ∧ fixedColumns <$> party_movies db' = fixedColumns <$> party_movies sampleDb.
Proof.
  eexists. split; [by vm_compute|].
  pose proof (operation_writes_only_ratings_of_the_party
                checkAll codeUnitCompare sampleDb _ "party" eq_refl) as H.
  destruct H as (H1 & H2 & H3 & _). by split_and!.
Defined.

(** X6. Running the operation again on the store it returned returns
    that same store: the result of a run depends on the movies' ids,
    titles and expected scores, the members and the swipes, and a stored
    final rating is its own fallback. *)
Theorem operation_is_idempotent
    (aggregate : list (list TitleElo) -> list TitleElo)
    (localeCompare : string -> string -> Z) (db db' : Db) (partyId : string) :
  calculateAndStoreFinalRankingsWith aggregate localeCompare db partyId
  = Returned db' ->
  calculateAndStoreFinalRankingsWith aggregate localeCompare db' partyId
  = Returned db'.
Proof.
  rewrite !operation_unfold. cbn zeta.
  destruct (decide (filter _ (party_movies db) = [])) as [|Hmovies]; [done|].
  destruct (decide (filter _ (party_members db) = [])) as [Hmem|Hmem].
  - intros [= <-]. by rewrite decide_False, decide_True.
  - intros [= <-]. cbn [party_movies party_members user_swipes].
    set (movies := filter (fun r => party_id r = partyId) (party_movies db)) in *.
    set (groups := swipesByMember _ _).
    set (agg := aggregate _).
    assert (filter (fun r => party_id r = partyId)
              (storedRow partyId agg movies <$> party_movies db)
            = storedRow partyId agg movies <$> movies) as Hmovies'.
    { apply filter_fmap_preserved. intros row. by rewrite storedRow_party. }
    rewrite Hmovies'.
    rewrite decide_False by (by intros ?%fmap_nil_inv).
    rewrite decide_False by done.
    assert (scoreMembers localeCompare (storedRow partyId agg movies <$> movies) groups
            = scoreMembers localeCompare movies groups) as ->.
    { unfold scoreMembers. apply fmap_ext_elem. intros sw _. f_equal.
      apply calculateMemberElo_columns. rewrite <-list_fmap_compose.
      apply fmap_ext_elem. intros row _. cbn.
      pose proof (fixedColumns_storedRow partyId agg movies row) as H.
      injection H as _ -> -> ->. done. }
    fold agg. f_equal. f_equal. rewrite <-list_fmap_compose.
    apply fmap_ext_elem. intros row _. cbn. apply storedRow_again.
    apply Forall_forall. intros m Hm. unfold movies in Hm.
    by apply list_elem_of_filter in Hm as [? _].
Qed.

Lemma operation_is_idempotent_witness :
  exists db',
    calculateAndStoreFinalRankingsWith checkAll codeUnitCompare sampleDb "party"
    = Returned db'
    ∧ calculateAndStoreFinalRankingsWith checkAll codeUnitCompare db' "party"
      = Returned db'.
Proof.
  eexists. split; [by vm_compute|].
  exact (operation_is_idempotent checkAll codeUnitCompare sampleDb _ "party"
           eq_refl).
Defined.

(** ** Recording swipes *)

Section RecordSwipe.
Implicit Types (st : SwipeStore) (rows : list SwipeRow) (row : SwipeRow).
Implicit Types (p u k : string) (d : Direction).

Lemma single_Some {A} (l : list A) (x : A) : single l = Some x <-> l = [x].
Proof.
  destruct l as [|y [|z l]]; cbn; split; intros H; by simplify_eq.
Qed.

Lemma NoDup_fmap_filter {A B} (f : A -> B) (P : A -> Prop)
    `{!forall x, Decision (P x)} (l : list A) :
  NoDup (f <$> l) -> NoDup (f <$> filter P l).
Proof.
  induction l as [|x l IH]; [done|].
  rewrite fmap_cons, NoDup_cons, filter_cons. intros [Hx Hl].
  case_decide; [|by apply IH].
  rewrite fmap_cons, NoDup_cons. split; [|by apply IH].
  intros (y & Hxy & [_ Hy]%list_elem_of_filter)%list_elem_of_fmap.
  apply Hx. rewrite Hxy. by apply list_elem_of_fmap_2.
Qed.

(** Under uniqueness the query for one swipe yields at most one row. *)
Lemma UniqueSwipes_at_most_one rows p u k :
  UniqueSwipes rows ->
  filter (sameSwipe p u k) rows = []
  ∨ exists row, filter (sameSwipe p u k) rows = [row].
Proof.
  intros Hu. apply (NoDup_fmap_filter _ (sameSwipe p u k)) in Hu.
  destruct (filter (sameSwipe p u k) rows) as [|x [|y l]] eqn:Hf;
    [by left | right; by exists x |].
  exfalso.
  assert (sameSwipe p u k x ∧ sameSwipe p u k y) as [(?&?&?) (?&?&?)].
  { split; eapply (proj1 (list_elem_of_filter (sameSwipe p u k) rows _));
      rewrite Hf; [left | right; left]. }
  rewrite !fmap_cons, NoDup_cons in Hu. destruct Hu as [Hx _].
  apply Hx. apply elem_of_cons. left. congruence.
Qed.

Lemma recordSwipe_Recorded user st p k d row st' :
  recordSwipe user st p k d = Recorded row st' ->
  exists u,
    user = Some u
    ∧ single (filter (sameSwipe p u k) (swipe_rows st)) = None
    ∧ row = {| row_party_id := p; row_user_id := u;
               row_movie_id := k; row_direction := d |}
    ∧ swipe_rows st' = swipe_rows st ++ [row]
    ∧ member_progress st' = updateProgress p u (member_progress st).
Proof.
  unfold recordSwipe. destruct user as [u|]; [|done].
  destruct (single _) eqn:Hs; [done|]. intros [= <- <-]. by exists u.
Qed.

(** X7. With at most one swipe per party, user and movie in the log, a
    swipe that was just recorded cannot be recorded again: the next call
    for the same user, party and movie, in either direction, is refused. *)
Theorem second_swipe_on_a_movie_is_refused
    (u : string) (st st' : SwipeStore) (p k : string) (d d' : Direction)
    (row : SwipeRow) :
  UniqueSwipes (swipe_rows st) ->
  recordSwipe (Some u) st p k d = Recorded row st' ->
  recordSwipe (Some u) st' p k d' = AlreadyRecorded.
Proof.
  intros Hu (u0 & [= <-] & Hnone & -> & Hrows & _)%recordSwipe_Recorded.
  unfold recordSwipe. rewrite Hrows, filter_app.
  destruct (UniqueSwipes_at_most_one _ p u k Hu) as [Hf|[x Hf]].
  - rewrite Hf, filter_cons, decide_True by done. done.
  - by rewrite Hf in Hnone.
Qed.

Lemma second_swipe_on_a_movie_is_refused_witness :
  exists row st',
    recordSwipe (Some "u1") sampleStore "party" "10" SwipeLeft = Recorded row st'
    ∧ recordSwipe (Some "u1") st' "party" "10" SwipeRight = AlreadyRecorded.
Proof.
  eexists _, _. split; [reflexivity|].
  refine (second_swipe_on_a_movie_is_refused "u1" sampleStore _ "party" "10"
            SwipeLeft SwipeRight _ _ eq_refl).
  apply (bool_decide_unpack _). by vm_compute.
Defined.

(** X8. Recording keeps the log free of repeated swipes: if no party,
    user and movie had two swipes before, none has two afterwards. *)
Theorem recordSwipe_keeps_swipes_unique
    (user : option string) (st st' : SwipeStore) (p k : string)
    (d : Direction) (row : SwipeRow) :
  UniqueSwipes (swipe_rows st) ->
  recordSwipe user st p k d = Recorded row st' ->
  UniqueSwipes (swipe_rows st').
Proof.
  intros Hu (u & -> & Hnone & -> & -> & _)%recordSwipe_Recorded.
  unfold UniqueSwipes in *. rewrite fmap_app. cbn.
  apply NoDup_app. split_and!; [done| |apply NoDup_singleton].
  intros key (x & -> & Hx)%list_elem_of_fmap [= Hp Hus Hk]%list_elem_of_singleton.
  destruct (UniqueSwipes_at_most_one _ p u k Hu) as [Hf|[y Hf]].
  - assert (x ∈ filter (sameSwipe p u k) (swipe_rows st)) as Hin
      by (by apply list_elem_of_filter).
    rewrite Hf in Hin. by apply elem_of_nil in Hin.
  - by rewrite Hf in Hnone.
Qed.

Lemma recordSwipe_keeps_swipes_unique_witness :
  exists row st',
    recordSwipe (Some "u1") sampleStore "party" "10" SwipeLeft = Recorded row st'
    ∧ UniqueSwipes (swipe_rows st').
Proof.
  eexists _, _. split; [reflexivity|].
  refine (recordSwipe_keeps_swipes_unique (Some "u1") sampleStore _ "party" "10"
            SwipeLeft _ _ eq_refl).
  apply (bool_decide_unpack _). by vm_compute.
Defined.

(** X9. A recorded swipe is what [getUserSwipes] returns last for that
    user and party, after the swipes it returned before; what it returns
    for any other user or party is unchanged. *)
Theorem recorded_swipe_is_read_back
    (u : string) (st st' : SwipeStore) (p k : string) (d : Direction)
    (row : SwipeRow) :
  recordSwipe (Some u) st p k d = Recorded row st' ->
  row = {| row_party_id := p; row_user_id := u;
           row_movie_id := k; row_direction := d |}
  ∧ getUserSwipes (Some u) st' p
    = (fun l => l ++ [row]) <$> getUserSwipes (Some u) st p
  ∧ (forall u' p', u' ≠ u ∨ p' ≠ p ->
       getUserSwipes (Some u') st' p' = getUserSwipes (Some u') st p').
Proof.
  intros (u0 & [= <-] & _ & -> & Hrows & _)%recordSwipe_Recorded.
  unfold getUserSwipes. rewrite Hrows. split_and!; [done| |].
  - cbn. by rewrite filter_app, filter_cons, decide_True.
  - intros u' p' Hne. rewrite filter_app, filter_cons.
    rewrite decide_False; [by rewrite app_nil_r|].
    intros [? ?]. cbn in *. destruct Hne; congruence.
Qed.

Lemma recorded_swipe_is_read_back_witness :
  exists row st',
    recordSwipe (Some "u1") sampleStore "party" "10" SwipeLeft = Recorded row st'
    ∧ getUserSwipes (Some "u1") st' "party"
      = (fun l => l ++ [row]) <$> getUserSwipes (Some "u1") sampleStore "party".
Proof.
  eexists _, _. split; [reflexivity|].
  exact (proj1 (proj2 (recorded_swipe_is_read_back "u1" sampleStore _ "party"
                         "10" SwipeLeft _ eq_refl))).
Defined.

Lemma updateProgress_single p u (progress : list MemberProgress)
    (member : MemberProgress) :
  single (filter (progressOfUser p u) progress) = Some member ->
  single (filter (progressOfUser p u) (updateProgress p u progress))
  = Some {| progress_party_id := p; progress_user_id := u;
            swipes_completed := Some (newCount member);
            has_completed_swiping := bool_decide (10 ≤ newCount member)%Z |}
  ∧ (forall i m, progress !! i = Some m -> ¬ progressOfUser p u m ->
       updateProgress p u progress !! i = Some m)
  ∧ length (updateProgress p u progress) = length progress.
Proof.
  intros Hs. unfold updateProgress. rewrite Hs.
  apply single_Some in Hs. split_and!.
  - rewrite filter_fmap_preserved.
    + rewrite Hs. cbn.
      assert (progressOfUser p u member) as [Hp Hus].
      { eapply (proj1 (list_elem_of_filter (progressOfUser p u) progress _)).
        rewrite Hs. left. }
      rewrite decide_True by done. by rewrite Hp, Hus.
    + intros m. by case_decide.
  - intros i m Hm Hno. rewrite list_lookup_fmap, Hm. cbn.
    by rewrite decide_False.
  - by rewrite length_fmap.
Qed.

(** X10. When the store holds exactly one member row for the user in the
    party, recording a swipe sets its count to the old count plus one (a
    null count is 0) and its completion flag to whether the new count is
    at least 10, and leaves the rows of other users and parties as they
    are; without exactly one such row the member table is not written. *)
Theorem recordSwipe_counts_the_swipe
    (u : string) (st st' : SwipeStore) (p k : string) (d : Direction)
    (row : SwipeRow) :
  recordSwipe (Some u) st p k d = Recorded row st' ->
  (forall member,
     single (filter (progressOfUser p u) (member_progress st)) = Some member ->
     single (filter (progressOfUser p u) (member_progress st'))
     = Some {| progress_party_id := p; progress_user_id := u;
               swipes_completed :=
                 Some (default 0 (swipes_completed member) + 1)%Z;
               has_completed_swiping :=
                 bool_decide (10 ≤ default 0 (swipes_completed member) + 1)%Z |}
     ∧ (forall i m, member_progress st !! i = Some m ->
          ¬ progressOfUser p u m -> member_progress st' !! i = Some m))
  ∧ (single (filter (progressOfUser p u) (member_progress st)) = None ->
     member_progress st' = member_progress st).
Proof.
  intros (u0 & [= <-] & _ & _ & _ & Hprog)%recordSwipe_Recorded.
  rewrite Hprog. split.
  - intros member Hs.
    destruct (updateProgress_single p u _ member Hs) as (H1 & H2 & _).
    by split.
  - intros Hnone. unfold updateProgress. by rewrite Hnone.
Qed.

Lemma recordSwipe_counts_the_swipe_witness :
  exists row st',
    recordSwipe (Some "u1") sampleStore "party" "10" SwipeLeft = Recorded row st'
    ∧ single (filter (progressOfUser "party" "u1") (member_progress st'))
      = Some {| progress_party_id := "party"; progress_user_id := "u1";
                swipes_completed := Some 10%Z;
                has_completed_swiping := true |}.
Proof.
  eexists _, _. split; [reflexivity|].
  exact (proj1 (proj1 (recordSwipe_counts_the_swipe "u1" sampleStore _ "party"
                         "10" SwipeLeft _ eq_refl) _ eq_refl)).
Defined.

(** X11. The count follows the log: if the one member row of the user
    holds the number of the user's swipes in the party before a swipe is
    recorded, it holds that number afterwards, and the completion flag
    says whether the user has at least 10 swipes in the log. *)
Theorem recordSwipe_keeps_count_equal_to_logged_swipes
    (u : string) (st st' : SwipeStore) (p k : string) (d : Direction)
    (row : SwipeRow) (member : MemberProgress) :
  recordSwipe (Some u) st p k d = Recorded row st' ->
  single (filter (progressOfUser p u) (member_progress st)) = Some member ->
  default 0%Z (swipes_completed member)
  = Z.of_nat (length (filter (swipeOfUser p u) (swipe_rows st))) ->
  exists member',
    single (filter (progressOfUser p u) (member_progress st')) = Some member'
    ∧ swipes_completed member'
      = Some (Z.of_nat (length (filter (swipeOfUser p u) (swipe_rows st'))))
    ∧ has_completed_swiping member'
      = bool_decide (10 ≤ length (filter (swipeOfUser p u) (swipe_rows st')))%nat.
Proof.
  intros (u0 & [= <-] & _ & -> & Hrows & Hprog)%recordSwipe_Recorded Hs Hcount.
  destruct (updateProgress_single p u _ member Hs) as (H1 & _).
  eexists. rewrite Hprog. split; [exact H1|]. cbn.
  rewrite Hrows, filter_app, filter_cons, decide_True by done.
  rewrite filter_nil, length_app. cbn. unfold newCount. rewrite Hcount.
  split.
  - f_equal. lia.
  - apply bool_decide_ext. lia.
Qed.

Lemma recordSwipe_keeps_count_equal_to_logged_swipes_witness :
  exists row st' member',
    recordSwipe (Some "u1") sampleStore "party" "10" SwipeLeft = Recorded row st'
    ∧ single (filter (progressOfUser "party" "u1") (member_progress st'))
      = Some member'
    ∧ swipes_completed member'
      = Some (Z.of_nat (length (filter (swipeOfUser "party" "u1") (swipe_rows st')))).
Proof.
  eexists _, _.
  destruct (recordSwipe_keeps_count_equal_to_logged_swipes "u1" sampleStore _
              "party" "10" SwipeLeft _ _ eq_refl eq_refl eq_refl)
    as (member' & H1 & H2 & _).
  exists member'. by split_and!.
Defined.

End RecordSwipe.

(** ** The format of the aggregated preferences *)

(** X12. A key of the aggregated preferences is kept exactly when its
    value is neither null nor undefined; a kept key holds the value the
    loop body computes from its old value. *)
Theorem normalized_preferences_drop_exactly_the_null_values
    (toStr' : Json -> string) (prefs : gmap string Json) (key : string) :
  normalizedPreferences toStr' prefs !! key
  = prefs !! key ≫= normalizeValue toStr'
  ∧ (normalizedPreferences toStr' prefs !! key = None
     <-> prefs !! key = None ∨ prefs !! key = Some JNull
         ∨ prefs !! key = Some JUndefined).
Proof.
  unfold normalizedPreferences. rewrite lookup_omap. split; [done|].
  destruct (prefs !! key) as [v|]; cbn; [|by split; [left|]].
  destruct v; cbn; split; try done; try (by intros [?|[?|?]]); auto.
Qed.

(** X13. Preferences that are in the expected format already, every
    value an array of strings, come back as they are. *)
Theorem normalized_preferences_keep_string_arrays
    (toStr' : Json -> string) (wellFormed : gmap string (list string)) :
  (forall s, toStr' (JStr s) = s) ->
  normalizedPreferences toStr' (stringArray <$> wellFormed) = wellFormed.
Proof.
  intros Hstr. apply map_eq. intros key.
  unfold normalizedPreferences. rewrite lookup_omap, lookup_fmap.
  destruct (wellFormed !! key) as [l|]; [|done].
  cbn. f_equal. clear -Hstr. induction l as [|s l IH]; [done|].
  cbn. by rewrite Hstr, IH.
Qed.

Lemma normalized_preferences_keep_string_arrays_witness :
  normalizedPreferences sampleToStr
    (stringArray <$> {[ "preferredGenres" := ["Drama"; "Comedy"];
                        "preferredEra" := ["90s"] ]})
  = {[ "preferredGenres" := ["Drama"; "Comedy"]; "preferredEra" := ["90s"] ]}.
Proof.
  apply normalized_preferences_keep_string_arrays. reflexivity.
Defined.

(** X14. One level of nesting is flattened, in order: an array whose
    elements are strings and arrays of strings becomes the list of all
    those strings, and a value that is one string becomes the list of
    that string. *)
Theorem normalized_value_flattens_one_level
    (toStr' : Json -> string) (items : list (string + list string)) :
  (forall s, toStr' (JStr s) = s) ->
  normalizeValue toStr' (JArr (itemJson <$> items))
  = Some (items ≫= itemStrings)
  ∧ (forall s, normalizeValue toStr' (JStr s) = Some [s]).
Proof.
  intros Hstr. split; [|intros s; cbn; by rewrite Hstr].
  cbn. f_equal. induction items as [|i items IH]; [done|].
  cbn. rewrite IH. f_equal. destruct i as [s|l]; cbn; [by rewrite Hstr|].
  rewrite <-list_fmap_compose. apply fmap_id_elem. intros s _. apply Hstr.
Qed.

Lemma normalized_value_flattens_one_level_witness :
  normalizeValue sampleToStr
    (JArr (itemJson <$> [inl "Drama"; inr ["Comedy"; "Horror"]; inl "Action"]))
  = Some ["Drama"; "Comedy"; "Horror"; "Action"].
Proof.
  exact (proj1 (normalized_value_flattens_one_level sampleToStr
                  [inl "Drama"; inr ["Comedy"; "Horror"]; inl "Action"]
                  (fun s => eq_refl))).
Defined.

(** ** The director names *)

Section Directors.
Implicit Types (z h c : Z) (userId : list Z).

Lemma toInt32_range z : (- 2 ^ 31 ≤ toInt32 z < 2 ^ 31)%Z.
Proof.
  unfold toInt32.
  pose proof (Z.mod_pos_bound (z + 2 ^ 31) (2 ^ 32)) as H. lia.
Qed.

Lemma toInt32_mod z : (toInt32 z `mod` 2 ^ 32 = z `mod` 2 ^ 32)%Z.
Proof.
  unfold toInt32. rewrite Zminus_mod_idemp_l. f_equal. lia.
Qed.

Lemma toInt32_congr z z' :
  (z `mod` 2 ^ 32 = z' `mod` 2 ^ 32)%Z -> toInt32 z = toInt32 z'.
Proof.
  intros H. unfold toInt32. f_equal.
  rewrite <-(Zplus_mod_idemp_l z), <-(Zplus_mod_idemp_l z'). by rewrite H.
Qed.

(** One round is multiplication by 31 and addition of the code unit,
    wrapped to 32 bits. *)
Lemma hashStep_31 h c : hashStep (toInt32 h) c = toInt32 (31 * h + c).
Proof.
  unfold hashStep. apply toInt32_congr.
  rewrite <-Zplus_mod_idemp_l, <-Zminus_mod_idemp_l, <-Zminus_mod_idemp_r.
  rewrite !toInt32_mod.
  rewrite <-Zmult_mod_idemp_l, !toInt32_mod, Zmult_mod_idemp_l.
  rewrite Zminus_mod_idemp_r, Zminus_mod_idemp_l, Zplus_mod_idemp_l.
  f_equal. lia.
Qed.

Lemma directorHash_foldl h userId :
  foldl hashStep (toInt32 h) userId
  = toInt32 (foldl (fun h c => 31 * h + c)%Z h userId).
Proof.
  revert h. induction userId as [|c userId IH]; intros h; [done|].
  cbn [foldl]. by rewrite hashStep_31, IH.
Qed.

(** X15. Every user id gets a name of the list: the index
    [Math.abs(hash) % DIRECTORS.length] is within the list for every
    hash, negative ones and the smallest 32-bit integer included. *)
Theorem getDirectorName_is_always_a_director (userId : list Z) :
  exists name, getDirectorName userId = Some name ∧ name ∈ DIRECTORS.
Proof.
  unfold getDirectorName.
  assert (is_Some (DIRECTORS !! Z.to_nat
            (Z.abs (directorHash userId) `mod` Z.of_nat (length DIRECTORS))%Z))
    as [name Hname].
  { apply lookup_lt_is_Some.
    pose proof (Z.mod_pos_bound (Z.abs (directorHash userId))
                  (Z.of_nat (length DIRECTORS))) as H.
    cbn [length DIRECTORS] in *. lia. }
  exists name. split; [done|]. by eapply list_elem_of_lookup_2.
Qed.

(** X16. The hash of a user id is the polynomial with base 31 over its
    code units, wrapped to a signed 32-bit integer; it always lies in
    the 32-bit range. *)
Theorem directorHash_is_the_wrapped_base31_polynomial (userId : list Z) :
  directorHash userId = toInt32 (poly31 userId)
  ∧ (- 2 ^ 31 ≤ directorHash userId < 2 ^ 31)%Z.
Proof.
  assert (directorHash userId = toInt32 (poly31 userId)) as Heq.
  { unfold directorHash, poly31. by rewrite <-directorHash_foldl. }
  split; [done|]. rewrite Heq. apply toInt32_range.
Qed.

End Directors.

(** ** Maps built from entries, and the service's own path *)

Lemma of_entries_snoc {V} (es : list (string * V)) (e : string * V) :
  JsMap.of_entries (es ++ [e]) = JsMap.set e.1 e.2 (JsMap.of_entries es).
Proof. unfold JsMap.of_entries. by rewrite foldl_app. Qed.

Lemma of_entries_keys {V} (es : list (string * V)) :
  JsMap.keys (JsMap.of_entries es) = new_Set (es.*1).
Proof.
  induction es as [|e es IH] using rev_ind; [done|].
  rewrite of_entries_snoc, fmap_app, keys_set, IH.
  change ([e].*1) with [e.1]. by rewrite new_Set_snoc.
Qed.

Lemma of_entries_get {V} (es : list (string * V)) (k : string) :
  JsMap.get k (JsMap.of_entries es)
  = snd <$> last (filter (fun e => e.1 = k) es).
Proof.
  induction es as [|e es IH] using rev_ind; [done|].
  rewrite of_entries_snoc, filter_app, filter_cons, filter_nil.
  destruct (decide (e.1 = k)) as [<-|Hne].
  - by rewrite get_set_eq, last_snoc.
  - rewrite get_set_ne by done. by rewrite app_nil_r.
Qed.

Lemma filter_fmap_pre {A B} (f : A -> B) (P : B -> Prop)
    `{!forall y, Decision (P y)} (l : list A) :
  filter P (f <$> l) = f <$> filter (fun x => P (f x)) l.
Proof.
  induction l as [|x l IH]; [done|].
  rewrite fmap_cons, !filter_cons, IH. by case_decide.
Qed.

(** X17. On the service's own path the padding block adds nothing: the
    vectors scored from one movie list and sorted carry the same titles,
    so normalisation returns them as they are. *)
Theorem normalization_is_a_noop_on_scored_vectors
    (localeCompare : string -> string -> Z)
    (movies : list PartyMovie) (groups : JsMap.t (list Swipe)) :
  ConsistentComparator localeCompare ->
  normalizeVectors localeCompare (scoreMembers localeCompare movies groups)
  = scoreMembers localeCompare movies groups.
Proof.
  intros Hlc. pose proof (byTitle_consistent _ Hlc) as Hcmp.
  destruct (scoreMembers localeCompare movies groups) as [|first rest] eqn:Hsm;
    [done|].
  apply normalizeVectors_fixed.
  - apply Forall_forall. intros v Hv t Ht. rewrite <-Hsm in Hv.
    apply (scoreMembers_titles _ _ _ _ t Hv).
    assert (first ∈ scoreMembers localeCompare movies groups) as Hf
      by (rewrite Hsm; left).
    by apply (scoreMembers_titles _ _ _ _ t Hf).
  - apply Forall_forall. intros v Hv. rewrite <-Hsm in Hv.
    unfold scoreMembers in Hv. apply list_elem_of_fmap in Hv as (sw & -> & _).
    by apply js_sort_Sorted.
Qed.

Lemma normalization_is_a_noop_on_scored_vectors_witness :
  normalizeVectors codeUnitCompare
    (scoreMembers codeUnitCompare scenarioMovies
       (swipesByMember ["u1"; "u2"] (user_swipes sampleDb)))
  = scoreMembers codeUnitCompare scenarioMovies
      (swipesByMember ["u1"; "u2"] (user_swipes sampleDb)).
Proof.
  apply normalization_is_a_noop_on_scored_vectors.
  exact codeUnitCompare_consistent.
Defined.

(** X18. When the aggregated list names a title more than once, the
    rating looked up for that title is the one of its last entry; a title
    the list does not name has no rating. *)
Theorem eloMap_holds_the_last_rating_of_a_title
    (aggregatedElos : list TitleElo) (t : string) :
  JsMap.get t (eloMap aggregatedElos)
  = te_elo <$> last (filter (fun e => te_title e = t) aggregatedElos).
Proof.
  unfold eloMap. rewrite of_entries_get, filter_fmap_pre, fmap_last. cbn.
  by destruct (last (filter _ aggregatedElos)).
Qed.

(** X19. The scorer lists the movie ids in the order of their first
    appearance, each once; when a movie id appears in several rows, its
    entry carries the title and the expected score of the last of them. *)
Theorem scorer_keeps_first_position_and_last_row_of_a_movie_id
    (movies : list PartyMovie) (swipes : list Swipe) :
  JsMap.keys (movieRatings movies swipes) = new_Set (movie_id <$> movies)
  ∧ forall k r,
      JsMap.get k (movieRatings movies swipes) = Some r ->
      exists c,
        last (filter (fun c => movie_id c = k) movies) = Some c
        ∧ mr_title r = title c
        ∧ mr_expected_score r = expected_score c.
Proof.
  split.
  - rewrite movieRatings_keys, initRatings_of_entries, of_entries_keys.
    by rewrite <-list_fmap_compose.
  - intros k r. rewrite movieRatings_get, initRatings_of_entries.
    rewrite of_entries_get, filter_fmap_pre, fmap_last. cbn.
    destruct (last (filter _ movies)) as [c|]; [|done].
    cbn. intros [= <-]. exists c. by rewrite replay_sumDeltas.
Qed.

(** ** Titles normalised for matching *)

Section NormalizeTitle.
Implicit Types (s : list Z) (c : Z) (b : bool).

Lemma isAlnum_not_space c : isAlnum c = true -> c ≠ 32%Z.
Proof. unfold isAlnum. rewrite bool_decide_eq_true. lia. Qed.

Lemma isAlnum_not_white c : isAlnum c = true -> isWhiteSpace c = false.
Proof.
  unfold isAlnum, isWhiteSpace. rewrite bool_decide_eq_true, bool_decide_eq_false.
  intros Hc [Hin|Hr]; [|lia].
  repeat (apply elem_of_cons in Hin as [->|Hin]; [lia|]).
  by apply elem_of_nil in Hin.
Qed.

Lemma replaceRuns_wellSpaced b s : wellSpaced b (replaceRuns b s).
Proof.
  revert b. induction s as [|c s IH]; intros b; [done|].
  cbn [replaceRuns]. destruct (isAlnum c) eqn:Hc.
  - left. split; [done | apply IH].
  - destruct b; [apply IH|]. right. split_and!; [done..|apply IH].
Qed.

Lemma wellSpaced_weaken b s : wellSpaced b s -> wellSpaced false s.
Proof.
  destruct s as [|c s]; [done|]. cbn.
  intros [H|(-> & _ & H)]; [by left | by right].
Qed.

Lemma trimStart_wellSpaced b s :
  wellSpaced b s -> wellSpaced true (trimStart s).
Proof.
  destruct s as [|c s]; [done|]. cbn [wellSpaced trimStart].
  intros [[Hc Hs]|(-> & _ & Hs)].
  - rewrite (isAlnum_not_white c Hc). by left.
  - replace (isWhiteSpace 32) with true by done.
    destruct s as [|c' s]; [done|]. cbn [wellSpaced trimStart] in *.
    destruct Hs as [[Hc' Hs]|(_ & ? & _)]; [|done].
    rewrite (isAlnum_not_white c' Hc'). by left.
Qed.

Lemma trimEnd_wellSpaced b s :
  wellSpaced b s -> wellSpaced b (trimEnd s) ∧ last (trimEnd s) ≠ Some 32%Z.
Proof.
  revert b. induction s as [|c s IH]; intros b; [done|].
  cbn [wellSpaced trimEnd].
  intros [[Hc Hs]|(-> & Hb & Hs)].
  - destruct (IH false Hs) as [IH1 IH2].
    destruct (trimEnd s) as [|c' s'] eqn:Ht.
    + rewrite (isAlnum_not_white c Hc). split; [by left|].
      cbn. intros [= ?]. by apply (isAlnum_not_space c).
    + split; [by left|]. by rewrite last_cons_cons.
  - destruct (IH true Hs) as [IH1 IH2].
    destruct (trimEnd s) as [|c' s'] eqn:Ht.
    + by replace (isWhiteSpace 32) with true by done.
    + split; [by right|]. by rewrite last_cons_cons.
Qed.

(** A clean title is left as it is by the replacement and by [trim]. *)
Lemma replaceRuns_wellSpaced_id b s :
  wellSpaced b s -> replaceRuns false s = s.
Proof.
  revert b. induction s as [|c s IH]; intros b; [done|].
  cbn [wellSpaced replaceRuns]. intros [[Hc Hs]|(-> & _ & Hs)].
  - rewrite Hc. f_equal. by apply (IH false).
  - replace (isAlnum 32) with false by done. f_equal.
    destruct s as [|c' s]; [done|]. cbn [wellSpaced replaceRuns] in *.
    destruct Hs as [[Hc' Hs]|(_ & ? & _)]; [|done].
    specialize (IH false (or_introl (conj Hc' Hs))).
    by rewrite Hc' in IH |- *.
Qed.

Lemma trimStart_clean_id s : wellSpaced true s -> trimStart s = s.
Proof.
  destruct s as [|c s]; [done|]. cbn [wellSpaced trimStart].
  intros [[Hc _]|(_ & ? & _)]; [|done]. by rewrite (isAlnum_not_white c Hc).
Qed.

Lemma trimEnd_clean_id b s :
  wellSpaced b s -> last s ≠ Some 32%Z -> trimEnd s = s.
Proof.
  revert b. induction s as [|c s IH]; intros b; [done|].
  cbn [wellSpaced trimEnd]. intros [[Hc Hs]|(-> & _ & Hs)] Hlast.
  - destruct s as [|c' s'].
    + cbn. by rewrite (isAlnum_not_white c Hc).
    + rewrite last_cons_cons in Hlast. rewrite (IH false Hs Hlast). done.
  - destruct s as [|c' s']; [done|].
    rewrite last_cons_cons in Hlast. rewrite (IH true Hs Hlast). done.
Qed.

Lemma normalizeTitle_clean (toLowerCase : list Z -> list Z) s :
  cleanTitle (normalizeTitle toLowerCase s).
Proof.
  unfold normalizeTitle, trim, cleanTitle.
  apply (trimEnd_wellSpaced true), (trimStart_wellSpaced false).
  apply replaceRuns_wellSpaced.
Qed.

Lemma wellSpaced_Forall b s :
  wellSpaced b s -> Forall (fun c => isAlnum c = true ∨ c = 32%Z) s.
Proof.
  revert b. induction s as [|c s IH]; intros b; [constructor|].
  cbn. intros [[Hc Hs]|(-> & _ & Hs)]; constructor; eauto.
Qed.

Lemma wellSpaced_no_double_space b s l1 l2 :
  wellSpaced b s -> s ≠ l1 ++ 32%Z :: 32%Z :: l2.
Proof.
  revert b s. induction l1 as [|c l1 IH]; intros b s Hs ->.
  - cbn in Hs. destruct Hs as [[Hc _]|(_ & _ & [[Hc _]|(_ & ? & _)])]; done.
  - cbn in Hs. destruct Hs as [[_ Hs]|(_ & _ & Hs)]; by eapply IH.
Qed.

(** X20. A normalised title consists of lower-case letters, digits and
    spaces only, has no space at either end and no two spaces in a row,
    whatever the title and the case mapping were. *)
Theorem normalized_title_is_words_with_single_spaces
    (toLowerCase : list Z -> list Z) (s : list Z) :
  Forall (fun c => isAlnum c = true ∨ c = 32%Z) (normalizeTitle toLowerCase s)
  ∧ head (normalizeTitle toLowerCase s) ≠ Some 32%Z
  ∧ last (normalizeTitle toLowerCase s) ≠ Some 32%Z
  ∧ (forall l1 l2, normalizeTitle toLowerCase s ≠ l1 ++ 32%Z :: 32%Z :: l2).
Proof.
  destruct (normalizeTitle_clean toLowerCase s) as [Hw Hlast].
  split_and!.
  - by eapply wellSpaced_Forall.
  - destruct (normalizeTitle toLowerCase s) as [|c r]; [done|].
    cbn in *. intros [= ->]. destruct Hw as [[Hc _]|(_ & ? & _)]; done.
  - done.
  - intros l1 l2. by eapply wellSpaced_no_double_space.
Qed.

(** X21. Normalising is idempotent, given that the case mapping leaves
    strings of lower-case letters, digits and spaces as they are. *)
Theorem normalizeTitle_is_idempotent
    (toLowerCase : list Z -> list Z) (s : list Z) :
  (forall t, Forall (fun c => isAlnum c = true ∨ c = 32%Z) t ->
             toLowerCase t = t) ->
  normalizeTitle toLowerCase (normalizeTitle toLowerCase s)
  = normalizeTitle toLowerCase s.
Proof.
  intros Hlower.
  destruct (normalizeTitle_clean toLowerCase s) as [Hw Hlast].
  unfold normalizeTitle at 1. rewrite Hlower by (by eapply wellSpaced_Forall).
  rewrite (replaceRuns_wellSpaced_id true) by done.
  unfold trim. rewrite trimStart_clean_id by done.
  by apply (trimEnd_clean_id true).
Qed.

Lemma normalizeTitle_is_idempotent_witness :
  normalizeTitle id (normalizeTitle id (codeUnits "  dune: part  two! "))
  = normalizeTitle id (codeUnits "  dune: part  two! ").
Proof.
  apply normalizeTitle_is_idempotent. by intros t _.
Defined.

End NormalizeTitle.
